(** * yajler: the tree builder of [c_src/yajler_nif.c]

    A shallow embedding of the NIF that decodes a JSON document into an
    Erlang term.  The yajl tokenizer is external: it is represented by the
    sequence of callbacks it makes.  The callbacks, the container stack and
    the allocator calls are transcribed from the C source.

    Conventions.
    - [int] fields are integers in [Z]; an arithmetic result outside the
      range of a 32-bit [int] is undefined behaviour in C.
    - Undefined behaviour (a store through [NULL], an access outside a
      block, a read of an uninitialised slot, freeing what the allocator
      did not hand out, signed overflow) is the outcome [Fault]; no state
      follows it.
    - A pointer to a term array is modelled together with the block it
      points to. *)

From Stdlib Require Import ZArith Lia.
From Stdlib Require Import Strings.Byte.
From stdpp Require Import base numbers option list gmap strings.

#[local] Set Warnings "-clear-no-such-hyp".

Abbreviation byte := Byte.byte.

#[global] Instance byte_eq_decision : EqDecision byte := Byte.byte_eq_dec.

(** ** Outcomes *)

Abbreviation outcome := option (only parsing).
Abbreviation Fault := None (only parsing).
Abbreviation Ret := Some (only parsing).

(** ** Erlang terms, as far as the NIF builds them *)

#[warnings="-register-all"]
Inductive term : Type :=
| TAtom (name : string)
| TLong (n : Z)
| TDouble (bits : Z)              (* the IEEE-754 bit pattern of the double *)
| TBinary (data : list byte)
| TTuple2 (a b : term)
| TList (elems : list term).

Definition enif_make_atom (name : string) : term := TAtom name.
Definition enif_make_long (n : Z) : term := TLong n.
Definition enif_make_double (d : Z) : term := TDouble d.
Definition enif_make_binary (data : list byte) : term := TBinary data.
Definition enif_make_tuple2 (a b : term) : term := TTuple2 a b.

(** A C string is read up to its terminating zero byte. *)
Fixpoint c_str (mem : list byte) : list byte :=
  match mem with
  | [] => []
  | b :: mem' => if bool_decide (b = x00) then [] else b :: c_str mem'
  end.

(** [enif_make_string(env, s, ERL_NIF_LATIN1)]: the list of character codes. *)
Definition enif_make_string (s : list byte) : term :=
  TList ((λ b, TLong (Z.of_N (Byte.to_N b))) <$> c_str s).

Definition enif_is_binary (t : term) : bool :=
  match t with TBinary _ => true | _ => false end.

Definition enif_inspect_binary (t : term) : option (list byte) :=
  match t with TBinary data => Some data | _ => None end.

(** ** C integers *)

Definition INT_MIN : Z := -2147483648.          (* - 2^31 *)
Definition INT_MAX : Z := 2147483647.           (* 2^31 - 1 *)

(** The result of an [int] operation: defined only inside the range. *)
Definition int (z : Z) : outcome Z :=
  if bool_decide (INT_MIN ≤ z ≤ INT_MAX)%Z then Ret z else Fault.

(** Linear arithmetic with the bounds of [int] spelled out. *)
Ltac int_lia := unfold INT_MAX, INT_MIN in *; lia.

(** [(long)v] for a [long long] [v], with a 64-bit [long]. *)
Definition cast_long (v : Z) : Z :=
  ((v + 2 ^ 63) `mod` 2 ^ 64 - 2 ^ 63)%Z.

(** ** [strncpy] *)

(** [strncpy dst src n] writes exactly [n] bytes: the bytes of [src] up to
    its first zero byte, then zero bytes.  The end of the list [src] stands
    for the terminator of a C string. *)
Fixpoint strncpy (src : list byte) (n : nat) {struct n} : list byte :=
  match n with
  | O => []
  | S n' =>
      match src with
      | [] => replicate n x00
      | b :: src' =>
          if bool_decide (b = x00) then replicate n x00
          else b :: strncpy src' n'
      end
  end.

(** ** The allocator behind [enif_alloc], [enif_realloc], [enif_free] *)

(** [live]: the blocks handed out and not yet freed.  [calls]: how many
    requests have been made; a granted request number [n] yields block [n].
    [grants n] tells whether request number [n] succeeds.  The requests are
    those of the callbacks; what yajl asks for itself through [alloc_funcs]
    belongs to the behaviour of yajl. *)
Record allocator : Type := Allocator {
  live : gset nat;
  calls : nat;
  grants : nat → bool
}.

Definition request (h : allocator) : allocator :=
  Allocator (live h) (S (calls h)) (grants h).

(** [enif_alloc(sz)]: a fresh block, or [NULL]. *)
Definition enif_alloc (h : allocator) : option nat * allocator :=
  if grants h (calls h)
  then (Some (calls h), Allocator ({[calls h]} ∪ live h) (S (calls h)) (grants h))
  else (None, request h).

(** Where an object lives: in the automatic storage of [decode_1], or in a
    block of the allocator. *)
Inductive address : Type :=
| Auto
| Heap (b : nat).

#[global] Instance address_eq_decision : EqDecision address.
Proof. solve_decision. Defined.

(** [enif_free(p)] for a non-null [p]. *)
Definition enif_free (h : allocator) (p : address) : outcome allocator :=
  match p with
  | Auto => Fault
  | Heap b =>
      if bool_decide (b ∈ live h)
      then Ret (Allocator (live h ∖ {[b]}) (calls h) (grants h))
      else Fault
  end.

(** A term array: where it starts and the slots of the block; [None] is a
    slot never written. *)
Record block : Type := Block {
  base : address;
  cells : list (option term)
}.

(** [enif_realloc(p, n * sizeof(ERL_NIF_TERM))].  On success the block keeps
    its identity and its contents and has [n] slots; on failure the result
    is [NULL] and the old block stays allocated. *)
Definition enif_realloc (h : allocator) (p : option block) (n : nat)
  : outcome (option block * allocator) :=
  match p with
  | None =>
      let '(r, h') := enif_alloc h in
      Ret ((λ b, Block (Heap b) (replicate n None)) <$> r, h')
  | Some a =>
      match base a with
      | Auto => Fault
      | Heap b =>
          if bool_decide (b ∈ live h) then
            if grants h (calls h)
            then Ret (Some (Block (Heap b) (resize n None (cells a))), request h)
            else Ret (None, request h)
          else Fault
      end
  end.

(** [enif_alloc_binary(n, &bin)]: the buffer belongs to the term made from
    it by [enif_make_binary], so it is not counted in [live]. *)
Definition enif_alloc_binary (h : allocator) : bool * allocator :=
  (grants h (calls h), request h).

(** [p[i]] as an rvalue and [p[i] = t]. *)
Definition load (p : option block) (i : Z) : outcome term :=
  a ← p;
  if bool_decide (0 ≤ i)%Z then mjoin (cells a !! Z.to_nat i) else Fault.

Definition store (p : option block) (i : Z) (t : term) : outcome (option block) :=
  a ← p;
  if bool_decide (0 ≤ i < Z.of_nat (length (cells a)))%Z
  then Ret (Some (Block (base a) (<[Z.to_nat i := Some t]> (cells a))))
  else Fault.

(** [enif_make_list_from_array(env, arr, cnt)]; [cnt] is taken as
    [unsigned], so a negative [int] would stand for a huge count. *)
Definition enif_make_list_from_array (p : option block) (cnt : Z) : outcome term :=
  if bool_decide (cnt < 0)%Z then Fault
  else if bool_decide (cnt = 0)%Z then Ret (TList [])
  else
    a ← p;
    if bool_decide (Z.to_nat cnt ≤ length (cells a))
    then TList <$> mapM id (take (Z.to_nat cnt) (cells a))
    else Fault.

(** ** [container_t] and [state_t] *)

(** The field [next] is the tail of the list of frames in [state_t]; [self]
    is the address of the struct itself. *)
Record container_t : Type := Container {
  self : address;
  count : Z;                  (* number of elements *)
  arraysz : Z;                (* size of elements array *)
  array : option block;       (* elements array *)
  key : bool                  (* true if last term was a key; an int, 0 or 1 *)
}.

Definition ERR_BUF_SIZE : nat := 256.

(** [env] gives access to the runtime, here its allocator; [c] is the
    innermost container followed by its [next] chain, [[]] being [NULL]. *)
Record state_t : Type := State {
  env : allocator;
  c : list container_t;
  errmsg : list byte
}.

Definition with_env (st : state_t) (h : allocator) : state_t :=
  State h (c st) (errmsg st).

(** ** [add_element] *)

(** The first statement of [add_element]: the array is doubled when the
    frame is full.  The result is the new [arraysz], the new [array] and
    the allocator.  The new size in slots is [sz]; the conversion of a
    negative [int] to [size_t] does not arise, since [arraysz] starts at 1
    or 16 and a product outside the range of [int] is a fault. *)
Definition grown (h : allocator) (f : container_t)
  : outcome (Z * option block * allocator) :=
  if bool_decide (arraysz f ≤ count f)%Z then
    sz ← int (arraysz f * 2);
    '(arr, h') ← enif_realloc h (array f) (Z.to_nat sz);
    Ret (sz, arr, h')
  else Ret (arraysz f, array f, h).

(** The second statement: the term is paired with the pending key, or
    stored in the next slot. *)
Definition placed (f : container_t) (sz : Z) (arr : option block) (t : term)
  : outcome container_t :=
  if key f then
    i ← int (count f - 1);
    k ← load arr i;
    arr' ← store arr i (enif_make_tuple2 k t);
    Ret (Container (self f) (count f) sz arr' false)
  else
    arr' ← store arr (count f) t;
    n ← int (count f + 1);
    Ret (Container (self f) n sz arr' false).

Definition add_element (st : state_t) (t : term) : outcome state_t :=
  match c st with
  | [] => Ret st
  | f :: next =>
      '(sz, arr, h) ← grown (env st) f;
      f' ← placed f sz arr t;
      Ret (State h (f' :: next) (errmsg st))
  end.

(** ** The yajl callbacks *)

Definition handle_null (st : state_t) : outcome (Z * state_t) :=
  st' ← add_element st (enif_make_atom "undefined");
  Ret (1%Z, st').

Definition handle_boolean (st : state_t) (boolVal : bool) : outcome (Z * state_t) :=
  st' ← (if boolVal
         then add_element st (enif_make_atom "true")
         else add_element st (enif_make_atom "false"));
  Ret (1%Z, st').

Definition handle_integer (st : state_t) (integerVal : Z) : outcome (Z * state_t) :=
  st' ← add_element st (enif_make_long (cast_long integerVal));
  Ret (1%Z, st').

Definition handle_double (st : state_t) (doubleVal : Z) : outcome (Z * state_t) :=
  st' ← add_element st (enif_make_double doubleVal);
  Ret (1%Z, st').

(** [stringLen] is the length of the payload [stringVal]. *)
Definition handle_string (st : state_t) (stringVal : list byte) : outcome (Z * state_t) :=
  let stringLen := length stringVal in
  let '(ok, h) := enif_alloc_binary (env st) in
  if negb ok then Ret (0%Z, with_env st h)
  else
    let data := strncpy stringVal stringLen in
    st' ← add_element (with_env st h) (enif_make_binary data);
    Ret (1%Z, st').

(** The result of [enif_alloc_binary] is not looked at: after a failure
    [bin] is indeterminate, and it is copied into and made a term of all the
    same. *)
Definition handle_map_key (st : state_t) (stringVal : list byte) : outcome (Z * state_t) :=
  let stringLen := length stringVal in
  let '(ok, h) := enif_alloc_binary (env st) in
  if negb ok then Fault
  else
    let data := strncpy stringVal stringLen in
    st' ← add_element (with_env st h) (enif_make_binary data);
    match c st' with
    | [] => Fault
    | f :: next =>
        Ret (1%Z, State (env st') (Container (self f) (count f) (arraysz f) (array f) true :: next)
                        (errmsg st'))
    end.

(** The result of neither [enif_alloc] is looked at: a null [c] is written
    through at once, a null [c->array] is kept in the frame. *)
Definition handle_start (st : state_t) : outcome (Z * state_t) :=
  let '(p, h) := enif_alloc (env st) in
  match p with
  | None => Fault
  | Some b =>
      let sz := 16%Z in
      let '(a, h') := enif_alloc h in
      let arr := (λ b', Block (Heap b') (replicate (Z.to_nat sz) None)) <$> a in
      Ret (1%Z, State h' (Container (Heap b) 0 sz arr false :: c st) (errmsg st))
  end.

Definition handle_start_map (st : state_t) : outcome (Z * state_t) := handle_start st.

Definition handle_start_array (st : state_t) : outcome (Z * state_t) := handle_start st.

Definition handle_end (st : state_t) : outcome (Z * state_t) :=
  match c st with
  | [] => Fault
  | f :: next =>
      let st1 := State (env st) next (errmsg st) in
      l ← enif_make_list_from_array (array f) (count f);
      st2 ← add_element st1 l;
      h ← (match array f with
           | Some a => enif_free (env st2) (base a)
           | None => Ret (env st2)
           end);
      h' ← enif_free h (self f);
      Ret (1%Z, with_env st2 h')
  end.

Definition handle_end_map (st : state_t) : outcome (Z * state_t) := handle_end st.

Definition handle_end_array (st : state_t) : outcome (Z * state_t) := handle_end st.

(** ** [cleanup_containers] *)

(** The loop runs while [c != NULL && c->next != NULL]: the last frame of
    the chain is left alone. *)
Fixpoint cleanup_containers (h : allocator) (c : list container_t) : outcome allocator :=
  match c with
  | [] => Ret h
  | f :: next =>
      match next with
      | [] => Ret h
      | _ :: _ =>
          h1 ← (match array f with
                | Some a => enif_free h (base a)
                | None => Ret h
                end);
          h2 ← enif_free h1 (self f);
          cleanup_containers h2 next
      end
  end.

(** ** The event source *)

(** One constructor per entry of the [callbacks] table. *)
Inductive event : Type :=
| EvNull
| EvBoolean (boolVal : bool)
| EvInteger (integerVal : Z)
| EvDouble (doubleVal : Z)
| EvString (stringVal : list byte)
| EvStartMap
| EvMapKey (stringVal : list byte)
| EvEndMap
| EvStartArray
| EvEndArray.

Definition callbacks (e : event) (st : state_t) : outcome (Z * state_t) :=
  match e with
  | EvNull => handle_null st
  | EvBoolean b => handle_boolean st b
  | EvInteger i => handle_integer st i
  | EvDouble d => handle_double st d
  | EvString s => handle_string st s
  | EvStartMap => handle_start_map st
  | EvMapKey s => handle_map_key st s
  | EvEndMap => handle_end_map st
  | EvStartArray => handle_start_array st
  | EvEndArray => handle_end_array st
  end.

Inductive yajl_status : Type :=
| yajl_status_ok
| yajl_status_client_canceled
| yajl_status_error.

#[global] Instance yajl_status_eq_decision : EqDecision yajl_status.
Proof. solve_decision. Defined.

(** What yajl does with one input buffer, as seen from the callbacks.
    - [handle_ok]: whether [yajl_alloc] returned a handle;
    - [parse_events], [parse_status]: the callbacks [yajl_parse] makes, in
      order, and its status when none of them cancels;
    - [complete_events], [complete_status]: the same for
      [yajl_complete_parse];
    - [error_text]: the string [yajl_get_error] returns, if any. *)
Record yajl_run : Type := YajlRun {
  handle_ok : bool;
  parse_events : list event;
  parse_status : yajl_status;
  complete_events : list event;
  complete_status : yajl_status;
  error_text : option (list byte)
}.

(** Modelled from the spec: yajl is not part of this repository.  It calls
    the callbacks in order; a callback that returns zero, a failed builder
    operation, stops the parse with [yajl_status_client_canceled]. *)
Fixpoint deliver (evs : list event) (final : yajl_status) (st : state_t)
  : outcome (yajl_status * state_t) :=
  match evs with
  | [] => Ret (final, st)
  | e :: evs' =>
      '(r, st') ← callbacks e st;
      if bool_decide (r = 0%Z) then Ret (yajl_status_client_canceled, st')
      else deliver evs' final st'
  end.

Definition yajl_parse (y : yajl_run) (st : state_t) : outcome (yajl_status * state_t) :=
  deliver (parse_events y) (parse_status y) st.

Definition yajl_complete_parse (y : yajl_run) (st : state_t) : outcome (yajl_status * state_t) :=
  deliver (complete_events y) (complete_status y) st.

(** ** [parse_json] *)

Definition unknown_yajl_error : list byte :=
  String.list_byte_of_string "Unknown YAJL error".

(** [yajl_parse], and [yajl_complete_parse] if that went well. *)
Definition run_yajl (y : yajl_run) (st : state_t) : outcome (yajl_status * state_t) :=
  '(ys, st) ← yajl_parse y st;
  if bool_decide (ys = yajl_status_ok) then yajl_complete_parse y st
  else Ret (ys, st).

(** The branch [ys != yajl_status_ok]: the message is copied to [errmsg],
    cut to fit, and the containers are cleaned up. *)
Definition report_error (y : yajl_run) (st : state_t)
  : outcome (option (list byte) * state_t) :=
  let '(err, buf) :=
    match error_text y with
    | Some msg =>
        let buf := strncpy msg (ERR_BUF_SIZE - 1) ++ [x00] in
        (c_str buf, buf)
    | None => (unknown_yajl_error, errmsg st)
    end in
  h ← cleanup_containers (env st) (c st);
  Ret (Some err, State h (c st) buf).

(** The result is [err]: [None] for [NULL], else the bytes of the C string.
    A null handle is passed on to [yajl_config], which writes through it. *)
Definition parse_json (y : yajl_run) (st : state_t)
  : outcome (option (list byte) * state_t) :=
  if negb (handle_ok y) then Fault
  else
    '(ys, st) ← run_yajl y st;
    if bool_decide (ys ≠ yajl_status_ok) then report_error y st
    else Ret (None, st).

(** ** [decode_1] *)

Inductive nif_result : Type :=
| Badarg                      (* enif_make_badarg *)
| Return (t : term).

(** The variable [term] is the one slot of the dummy top level container,
    which stays at the end of the [next] chain. *)
Definition top_level_term (st : state_t) : outcome term :=
  f ← last (c st);
  load (array f) 0.

Definition decode_1 (yajl : list byte → yajl_run) (nif_env : allocator) (argv : list term)
  : outcome (nif_result * allocator) :=
  let c := Container Auto 0 1 (Some (Block Auto [None])) false in
  let st := State nif_env [c] [] in              (* uninitialised errmsg *)
  match argv with
  | [arg] =>                                        (* argc == 1 *)
      if negb (enif_is_binary arg) then Ret (Badarg, nif_env)
      else
        match enif_inspect_binary arg with
        | None => Ret (Badarg, nif_env)
        | Some bin =>
            '(err, st') ← parse_json (yajl bin) st;
            match err with
            | Some e =>
                Ret (Return (enif_make_tuple2 (enif_make_atom "error") (enif_make_string e)),
                     env st')
            | None =>
                t ← top_level_term st';
                Ret (Return (enif_make_tuple2 (enif_make_atom "ok") t), env st')
            end
        end
  | _ => Ret (Badarg, nif_env)                      (* argc != 1 *)
  end.

(** ** Documents and the events of a conforming tokenizer *)

(** The structure of a JSON text.  Integers are the [long long] values and
    doubles the bit patterns that yajl passes to the callbacks. *)
#[warnings="-register-all"]
Inductive json : Type :=
| JNull
| JBool (b : bool)
| JInteger (i : Z)
| JDouble (d : Z)
| JString (s : list byte)
| JArray (elems : list json)
| JObject (members : list (list byte * json)).

(** Modelled from the spec: the event source is not part of this
    repository.  It emits one event per structural token, in document
    order; a map key is emitted directly before the events of its value. *)
Fixpoint events_of (j : json) : list event :=
  match j with
  | JNull => [EvNull]
  | JBool b => [EvBoolean b]
  | JInteger i => [EvInteger i]
  | JDouble d => [EvDouble d]
  | JString s => [EvString s]
  | JArray elems => EvStartArray :: concat (events_of <$> elems) ++ [EvEndArray]
  | JObject members =>
      EvStartMap
        :: concat ((λ m, EvMapKey (fst m) :: events_of (snd m)) <$> members)
        ++ [EvEndMap]
  end.

(** The bytes a string callback stores for a payload. *)
Definition stored (s : list byte) : list byte := strncpy s (length s).

(** The Erlang term that stands for a document: arrays and objects are both
    lists, an object member is a 2-tuple of the key binary and the value. *)
Fixpoint term_of (j : json) : term :=
  match j with
  | JNull => TAtom "undefined"
  | JBool true => TAtom "true"
  | JBool false => TAtom "false"
  | JInteger i => TLong (cast_long i)
  | JDouble d => TDouble d
  | JString s => TBinary (stored s)
  | JArray elems => TList (term_of <$> elems)
  | JObject members =>
      TList ((λ m, TTuple2 (TBinary (stored (fst m))) (term_of (snd m))) <$> members)
  end.

(** The containers of a document that the [int] fields can count: an array
    of at most [2^30] elements, an object of fewer than [2^30] members. *)
Fixpoint fits (j : json) : bool :=
  match j with
  | JArray elems =>
      bool_decide (Z.of_nat (length elems) ≤ 2 ^ 30)%Z && forallb fits elems
  | JObject members =>
      bool_decide (Z.of_nat (length members) < 2 ^ 30)%Z
      && forallb (λ m, fits (snd m)) members
  | _ => true
  end.

(** A run of yajl over the text of [j] that reports no error; [now] events
    reach the callbacks from [yajl_parse], the others from
    [yajl_complete_parse]. *)
Definition yajl_accepts (j : json) (now : nat) : yajl_run :=
  YajlRun true (take now (events_of j)) yajl_status_ok
          (drop now (events_of j)) yajl_status_ok None.

Definition system_allocator : allocator := Allocator ∅ 0 (λ _, true).

(** ** Invariants of the container stack *)

(** What every frame satisfies between two callbacks. *)
Record frame_ok (f : container_t) : Prop := FrameOk {
  count_range : (0 ≤ count f ≤ arraysz f)%Z;
  arraysz_range : (1 ≤ arraysz f ≤ INT_MAX)%Z;
  key_count : key f = true → (1 ≤ count f)%Z;
  array_size : ∀ a, array f = Some a → Z.of_nat (length (cells a)) = arraysz f;
  slots_set : ∀ i, (0 ≤ i < count f)%Z → is_Some (load (array f) i)
}.

(** The frame has exactly the terms [ts] in its first [count] slots. *)
Definition holds (f : container_t) (ts : list term) : Prop :=
  count f = Z.of_nat (length ts)
  ∧ ∀ i t, ts !! i = Some t → load (array f) (Z.of_nat i) = Ret t.

(** The dummy top level container of [decode_1]. *)
Definition is_root (f : container_t) : Prop :=
  self f = Auto ∧ arraysz f = 1%Z ∧ ∃ a, array f = Some a ∧ base a = Auto.

(** A frame made by [handle_start]. *)
Definition is_pushed (f : container_t) : Prop :=
  (∃ b, self f = Heap b) ∧ ∀ a, array f = Some a → ∃ b, base a = Heap b.

Definition heap_block (p : address) : list nat :=
  match p with
  | Auto => []
  | Heap b => [b]
  end.

(** The allocator blocks a frame owns: the struct and the term array. *)
Definition frame_blocks (f : container_t) : list nat :=
  heap_block (self f) ++ from_option (λ a, heap_block (base a)) [] (array f).

Definition stack_blocks (cs : list container_t) : list nat :=
  concat (frame_blocks <$> cs).

(** The states between two callbacks of one decode that started with the
    blocks [L0] allocated: the root is the last frame, the blocks in use are
    those of [L0] and, once each, those the frames own. *)
Record state_ok (L0 : gset nat) (st : state_t) : Prop := StateOk {
  stack_shape : ∃ frames root,
      c st = frames ++ [root] ∧ is_root root ∧ Forall is_pushed frames;
  stack_frames : Forall frame_ok (c st);
  blocks_once : NoDup (stack_blocks (c st));
  blocks_live : live (env st) = L0 ∪ list_to_set (stack_blocks (c st));
  blocks_new : ∀ b, b ∈ stack_blocks (c st) → b ∉ L0;
  live_below : ∀ b, b ∈ live (env st) → b < calls (env st)
}.

(** The allocator after [k] more requests that did not change [live]. *)
Definition skip (k : nat) (h : allocator) : allocator :=
  Allocator (live h) (k + calls h) (grants h).

(** The state in which the blocks [X] are allocated as well. *)
Definition with_blocks (X : gset nat) (st : state_t) : state_t :=
  State (Allocator (X ∪ live (env st)) (calls (env st)) (grants (env st)))
        (c st) (errmsg st).

(** An allocator that grants every request, and whose blocks are numbered
    below the next request. *)
Definition plentiful (h : allocator) : Prop :=
  (∀ n, grants h n = true) ∧ (∀ b, b ∈ live h → b < calls h).

(** The array of the innermost frame, if it is an allocator block, was handed
    out by an earlier request. *)
Definition top_below (st : state_t) : Prop :=
  ∀ f next a b, c st = f :: next → array f = Some a → base a = Heap b →
                b < calls (env st).

(** The innermost frame is the pushed frame with struct [b] and term array
    [a], above the stack [next]; it holds the terms [ts] and its [key] flag
    is [k]. *)
Definition open_frame (st : state_t) (b a : nat) (ts : list term) (k : bool)
    (next : list container_t) : Prop :=
  ∃ f arr,
    c st = f :: next ∧ frame_ok f ∧ holds f ts ∧ key f = k
    ∧ self f = Heap b ∧ array f = Some arr ∧ base arr = Heap a
    ∧ a ∈ live (env st) ∧ b ∈ live (env st) ∧ a ≠ b.

(** The events of [j], wherever they arrive, have the effect of one
    [add_element] of the term of [j]; the allocator requests made on the way
    leave no block behind. *)
Definition builds (j : json) : Prop :=
  ∀ st rest final,
    plentiful (env st) → top_below st →
    ∃ k, deliver (events_of j ++ rest) final st
         = (st' ← add_element (with_env st (skip k (env st))) (term_of j);
            deliver rest final st').

(** The state [decode_1] starts from. *)
Definition root_frame : container_t :=
  Container Auto 0 1 (Some (Block Auto [None])) false.

Definition initial_state (h : allocator) : state_t := State h [root_frame] [].

(** ** Sample inputs *)

(** The state after a first start event. *)
Definition opened_state : state_t :=
  State (Allocator {[0; 1]} 2 (λ _, true))
    [Container (Heap 0) 0 16 (Some (Block (Heap 1) (replicate 16 None))) false;
     root_frame] [].

(** A frame as [handle_start] and [handle_map_key] leave it: the key ["k"]
    is stored and waits for its value. *)
Definition pending_frame : container_t :=
  Container (Heap 0) 1 16
    (Some (Block (Heap 1) (Some (TBinary ["k"%byte]) :: replicate 15 None))) true.

Definition pending_state : state_t :=
  State (Allocator {[0; 1]} 3 (λ _, true)) [pending_frame; root_frame] [].

(** The same state after the value [1] has arrived. *)
Definition paired_state : state_t :=
  State (Allocator {[0; 1]} 3 (λ _, true))
    [Container (Heap 0) 1 16
       (Some (Block (Heap 1)
          (Some (TTuple2 (TBinary ["k"%byte]) (TLong 1)) :: replicate 15 None)))
       false;
     root_frame] [].

(** A frame whose sixteen slots are taken. *)
Definition full_frame : container_t :=
  Container (Heap 0) 16 16
    (Some (Block (Heap 1) (replicate 16 (Some (TAtom "true"))))) false.


(** An allocator that refuses every request, and one that grants only the
    first two. *)
Definition exhausted_allocator : allocator := Allocator ∅ 0 (λ _, false).


(** The object [{"k":1,"k":2}]. *)
Definition twice_k : json :=
  JObject [(["k"%byte], JInteger 1); (["k"%byte], JInteger 2)].


(** The state in which that run stops: the array is open, and the third
    request, for the string, was refused. *)
Definition cancelled_state : state_t :=
  State (Allocator {[0; 1]} 3 (λ n, bool_decide (n < 2)))
    [Container (Heap 0) 0 16 (Some (Block (Heap 1) (replicate 16 None))) false;
     root_frame] [].

(** ** Measures used by the further properties *)

(** By how much a callback changes the depth of the container stack. *)
Definition depth_change (e : event) : Z :=
  match e with
  | EvStartMap | EvStartArray => 1
  | EvEndMap | EvEndArray => -1
  | _ => 0
  end.

Definition is_map_key (e : event) : bool :=
  match e with
  | EvMapKey _ => true
  | _ => false
  end.



(** An allocator with a block of the caller's in use. *)
Definition busy_allocator : allocator := Allocator {[7]} 9 (λ _, true).

(** A yajl run over the text [{"k":1,"k":] which ends early: yajl reports
    an error after the second key. *)
Definition cut_off_run : yajl_run :=
  YajlRun true [EvStartMap; EvMapKey ["k"%byte]; EvInteger 1; EvMapKey ["k"%byte]]
          yajl_status_error [] yajl_status_ok
          (Some (String.list_byte_of_string "parse error: premature EOF")).

(** The state after a document that is a single number: the dummy container
    of [decode_1] holds its one term. *)
Definition complete_state : state_t :=
  State system_allocator [Container Auto 1 1 (Some (Block Auto [Some (TLong 1)])) false] [].

(** A frame that can take one more term when the allocator grants what is
    asked: the dummy container while it is empty, or a pushed frame that has
    its term array and whose doubled size an [int] can hold. *)
Definition roomy (f : container_t) : Prop :=
  (is_root f ∧ count f = 0%Z)
  ∨ (is_pushed f ∧ is_Some (array f) ∧ (count f < 2 ^ 30)%Z).

(** The frames are in place for an event: the frame that is to take a term
    is roomy, and an end event finds a frame to close above it. *)
Definition in_place (e : event) (cs : list container_t) : Prop :=
  match e with
  | EvStartMap | EvStartArray => True
  | EvEndMap | EvEndArray =>
      match cs with
      | _ :: g :: _ => roomy g
      | _ => False
      end
  | _ =>
      match cs with
      | f :: _ => roomy f
      | [] => False
      end
  end.

(** * Properties *)

(** ** [strncpy] and C strings *)

Section Strings.

Implicit Types (s pre post : list byte) (n : nat).

Lemma length_strncpy s n : length (strncpy s n) = n.
Proof.
  revert s; induction n as [|n IH]; intros [|b s]; simpl; try done.
  - by rewrite length_replicate.
  - case_bool_decide; simpl; [by rewrite length_replicate | by rewrite IH].
Qed.

Lemma strncpy_no_zero s post : x00 ∉ s → strncpy (s ++ post) (length s) = s.
Proof.
  induction s as [|b s IH]; simpl; [done|].
  intros Hs. apply not_elem_of_cons in Hs as [Hb Hs].
  rewrite bool_decide_eq_false_2; [|done]. by rewrite IH.
Qed.

Lemma strncpy_at_zero pre post n :
  x00 ∉ pre →
  strncpy (pre ++ x00 :: post) (length pre + n) = pre ++ replicate n x00.
Proof.
  induction pre as [|b pre IH]; simpl.
  - intros _. by destruct n.
  - intros Hs. apply not_elem_of_cons in Hs as [Hb Hs].
    rewrite bool_decide_eq_false_2; [|done]. by rewrite IH.
Qed.

(** What is read back from the error buffer: the message, cut at [n]
    characters. *)
Lemma c_str_strncpy s n : c_str (strncpy s n ++ [x00]) = take n (c_str s).
Proof.
  revert s; induction n as [|n IH]; intros [|b s]; simpl; try done.
  case_bool_decide as Hb; simpl; [done|].
  rewrite bool_decide_eq_false_2; [|done]. by rewrite IH.
Qed.

Lemma stored_exact s : x00 ∉ s → stored s = s.
Proof.
  intros Hs. unfold stored.
  rewrite <- (app_nil_r s) at 1. by apply strncpy_no_zero.
Qed.

Lemma stored_zero_filled pre post :
  x00 ∉ pre →
  stored (pre ++ x00 :: post) = pre ++ x00 :: replicate (length post) x00.
Proof.
  intros Hs. unfold stored. rewrite length_app. simpl.
  by rewrite strncpy_at_zero.
Qed.

End Strings.

(** ** Slots of a term array *)

Section Arrays.

Implicit Types (p : option block) (i j : Z) (t : term).

Lemma store_inv p i t p' :
  store p i t = Ret p' →
  ∃ a, p = Some a ∧ (0 ≤ i < Z.of_nat (length (cells a)))%Z
       ∧ p' = Some (Block (base a) (<[Z.to_nat i := Some t]> (cells a))).
Proof.
  unfold store. destruct p as [a|]; simpl; [|done].
  case_bool_decide; [|done]. intros [= <-]. by exists a.
Qed.

Lemma store_load_eq p i t p' : store p i t = Ret p' → load p' i = Ret t.
Proof.
  intros (a & -> & Hi & ->)%store_inv. unfold load; simpl.
  rewrite bool_decide_eq_true_2 by lia.
  rewrite list_lookup_insert_eq by lia. done.
Qed.

Lemma store_load_ne p i j t p' :
  store p i t = Ret p' → j ≠ i → load p' j = load p j.
Proof.
  intros (a & -> & Hi & ->)%store_inv Hne. unfold load; simpl.
  case_bool_decide; [|done].
  rewrite list_lookup_insert_ne by lia. done.
Qed.

Lemma load_inv p i t :
  load p i = Ret t →
  ∃ a, p = Some a ∧ (0 ≤ i < Z.of_nat (length (cells a)))%Z
       ∧ cells a !! Z.to_nat i = Some (Some t).
Proof.
  unfold load. destruct p as [a|]; simpl; [|done].
  case_bool_decide; [|done].
  destruct (cells a !! Z.to_nat i) as [[t'|]|] eqn:E; simpl; try done.
  intros [= ->]. exists a. split_and!; try done; try lia.
  apply lookup_lt_Some in E. lia.
Qed.

(** A reallocation keeps the slots below the new size. *)
Lemma realloc_load h p n (a' : block) h' j :
  enif_realloc h p n = Ret (Some a', h') →
  (j < Z.of_nat n)%Z →
  load (Some a') j = load p j.
Proof.
  unfold enif_realloc. destruct p as [a|].
  - destruct (base a) as [|b]; [done|].
    case_bool_decide; [|done]. destruct (grants h (calls h)); [|done].
    intros [= <- <-] Hj. unfold load; simpl.
    case_bool_decide; [|done].
    destruct (decide (Z.to_nat j < length (cells a))) as [Hlt|Hge].
    + rewrite lookup_resize by lia. done.
    + rewrite lookup_resize_new by lia.
      rewrite (lookup_ge_None_2 (cells a)) by lia. done.
  - unfold enif_alloc. destruct (grants h (calls h)); [|done].
    intros [= <- <-] Hj. unfold load; simpl.
    case_bool_decide; [|done].
    rewrite lookup_replicate_2 by lia. done.
Qed.

Lemma realloc_length h p n (a' : block) h' :
  enif_realloc h p n = Ret (Some a', h') → length (cells a') = n.
Proof.
  unfold enif_realloc. destruct p as [a|].
  - destruct (base a) as [|b]; [done|].
    case_bool_decide; [|done]. destruct (grants h (calls h)); [|done].
    intros [= <- <-]. simpl. by rewrite length_resize.
  - unfold enif_alloc. destruct (grants h (calls h)); [|done].
    intros [= <- <-]. simpl. by rewrite length_replicate.
Qed.

End Arrays.

(** ** [add_element] *)

Section AddElement.

Implicit Types (st : state_t) (t : term) (f : container_t).

Lemma add_element_cons st t f next :
  c st = f :: next →
  add_element st t =
    '(sz, arr, h) ← grown (env st) f;
    f' ← placed f sz arr t;
    Ret (State h (f' :: next) (errmsg st)).
Proof. intros Hc. unfold add_element. by rewrite Hc. Qed.

Lemma add_element_nil st t : c st = [] → add_element st t = Ret st.
Proof. intros Hc. unfold add_element. by rewrite Hc. Qed.

Lemma int_inv z z' : int z = Ret z' → z' = z ∧ (INT_MIN ≤ z ≤ INT_MAX)%Z.
Proof. unfold int. case_bool_decide; [|done]. by intros [= <-]. Qed.

Lemma int_in_range z : (INT_MIN ≤ z ≤ INT_MAX)%Z → int z = Ret z.
Proof. intros. unfold int. by rewrite bool_decide_eq_true_2. Qed.

Lemma grown_inv h f sz arr h' :
  grown h f = Ret (sz, arr, h') →
  ((count f < arraysz f)%Z ∧ sz = arraysz f ∧ arr = array f ∧ h' = h)
  ∨ ((arraysz f ≤ count f)%Z ∧ sz = (arraysz f * 2)%Z
     ∧ (INT_MIN ≤ sz ≤ INT_MAX)%Z
     ∧ enif_realloc h (array f) (Z.to_nat sz) = Ret (arr, h')).
Proof.
  unfold grown. case_bool_decide as Hc.
  - destruct (int (arraysz f * 2)) as [z|] eqn:Hz; simpl; [|done].
    apply int_inv in Hz as [-> Hz].
    destruct (enif_realloc _ _ _) as [[arr0 h0]|] eqn:Hr; simpl; [|done].
    intros [= <- <- <-]. right. done.
  - intros [= <- <- <-]. left. split; [lia|done].
Qed.

Lemma placed_inv f sz arr t f' :
  placed f sz arr t = Ret f' →
  if key f then
    ∃ k arr', load arr (count f - 1) = Ret k
      ∧ store arr (count f - 1) (TTuple2 k t) = Ret arr'
      ∧ f' = Container (self f) (count f) sz arr' false
  else
    ∃ arr', store arr (count f) t = Ret arr'
      ∧ (count f + 1 ≤ INT_MAX)%Z
      ∧ f' = Container (self f) (count f + 1) sz arr' false.
Proof.
  unfold placed. destruct (key f).
  - destruct (int (count f - 1)) as [i|] eqn:Hi; simpl; [|done].
    apply int_inv in Hi as [-> Hi].
    destruct (load arr _) as [k|] eqn:Hk; simpl; [|done].
    destruct (store arr _ _) as [arr'|] eqn:Hs; simpl; [|done].
    intros [= <-]. by exists k, arr'.
  - destruct (store arr _ _) as [arr'|] eqn:Hs; simpl; [|done].
    destruct (int (count f + 1)) as [n|] eqn:Hn; simpl; [|done].
    apply int_inv in Hn as [-> Hn].
    intros [= <-]. exists arr'. split_and!; [done|lia|done].
Qed.

Lemma add_element_inv st t f next st' :
  c st = f :: next →
  add_element st t = Ret st' →
  ∃ sz arr h f',
    grown (env st) f = Ret (sz, arr, h)
    ∧ placed f sz arr t = Ret f'
    ∧ st' = State h (f' :: next) (errmsg st).
Proof.
  intros Hc. rewrite (add_element_cons _ _ _ _ Hc).
  destruct (grown _ _) as [[[sz arr] h]|] eqn:Hg; simpl; [|done].
  destruct (placed _ _ _ _) as [f'|] eqn:Hp; simpl; [|done].
  intros [= <-]. by exists sz, arr, h, f'.
Qed.

End AddElement.

Section AddElementEffect.

Implicit Types (st : state_t) (t : term) (f : container_t).

(** What [grown] hands to the store: below the new size the slots are those
    of the frame. *)
Lemma grown_load h f sz arr h' a j :
  grown h f = Ret (sz, arr, h') →
  arr = Some a →
  (j < Z.of_nat (length (cells a)))%Z →
  load arr j = load (array f) j.
Proof.
  intros [(_ & _ & -> & _)|(_ & _ & _ & Hr)]%grown_inv -> Hj; [done|].
  pose proof (realloc_length _ _ _ _ _ Hr) as Hlen.
  apply (realloc_load _ _ _ _ _ j) in Hr; [done|lia].
Qed.

Lemma grown_allocator h f sz arr h' :
  grown h f = Ret (sz, arr, h') →
  grants h' = grants h ∧ calls h ≤ calls h' ≤ S (calls h)
  ∧ live h ⊆ live h' ∧ live h' ⊆ {[calls h]} ∪ live h.
Proof.
  intros [(_ & _ & _ & ->)|(_ & _ & _ & Hr)]%grown_inv.
  { split_and!; [done|lia|lia|set_solver|set_solver]. }
  revert Hr. unfold enif_realloc. destruct (array f) as [a|].
  - destruct (base a); [done|]. case_bool_decide; [|done].
    destruct (grants h (calls h)); intros [= <- <-]; simpl;
      (split_and!; [done|lia|lia|set_solver|set_solver]).
  - unfold enif_alloc. destruct (grants h (calls h)); intros [= <- <-]; simpl;
      (split_and!; [done|lia|lia|set_solver|set_solver]).
Qed.

(** The effect of a returning [add_element] on the innermost frame. *)
Lemma add_element_effect st t f next st' :
  c st = f :: next →
  add_element st t = Ret st' →
  ∃ f',
    c st' = f' :: next ∧ errmsg st' = errmsg st
    ∧ self f' = self f ∧ key f' = false
    ∧ (if key f
       then count f' = count f
            ∧ ∃ k, load (array f) (count f - 1) = Ret k
                   ∧ load (array f') (count f - 1) = Ret (TTuple2 k t)
       else count f' = (count f + 1)%Z ∧ load (array f') (count f) = Ret t)
    ∧ (∀ j, (0 ≤ j < count f')%Z →
            j ≠ (if key f then count f - 1 else count f)%Z →
            load (array f') j = load (array f) j)
    ∧ (if bool_decide (arraysz f ≤ count f)%Z
       then arraysz f' = (arraysz f * 2)%Z
       else arraysz f' = arraysz f).
Proof.
  intros Hc Hadd.
  destruct (add_element_inv _ _ _ _ _ Hc Hadd) as (sz & arr & h & f' & Hg & Hp & ->).
  exists f'. simpl. split; [done|]. split; [done|].
  assert (if bool_decide (arraysz f ≤ count f)%Z
          then sz = (arraysz f * 2)%Z else sz = arraysz f) as Hsz.
  { destruct (grown_inv _ _ _ _ _ Hg) as [(? & -> & _)|(? & -> & _)].
    - by rewrite bool_decide_eq_false_2 by lia.
    - by rewrite bool_decide_eq_true_2 by lia. }
  apply placed_inv in Hp. destruct (key f).
  - destruct Hp as (k & arr' & Hk & Hs & ->). simpl.
    destruct (store_inv _ _ _ _ Hs) as (a & -> & Hi & ->).
    split; [done|]. split; [done|]. split; [|split; [|done]].
    + split; [done|]. exists k. split.
      * rewrite <- Hk. symmetry. eapply grown_load; [done..|lia].
      * by apply (store_load_eq _ _ _ _ Hs).
    + intros j Hj Hne. rewrite (store_load_ne _ _ _ _ _ Hs) by done.
      eapply grown_load; [done..|lia].
  - destruct Hp as (arr' & Hs & Hn & ->). simpl.
    destruct (store_inv _ _ _ _ Hs) as (a & -> & Hi & ->).
    split; [done|]. split; [done|]. split; [|split; [|done]].
    + split; [done|]. by apply (store_load_eq _ _ _ _ Hs).
    + intros j Hj Hne. rewrite (store_load_ne _ _ _ _ _ Hs) by done.
      eapply grown_load; [done..|lia].
Qed.

End AddElementEffect.

Section FrameInvariant.

Implicit Types (st : state_t) (t : term) (f : container_t).

Lemma frame_ok_array f : frame_ok f → (1 ≤ count f)%Z → is_Some (array f).
Proof.
  intros Hf Hc. destruct (slots_set f Hf 0) as [t Ht]; [lia|].
  apply load_inv in Ht as (a & -> & _). done.
Qed.

(** After the growth step of a frame in good order there is room. *)
Lemma grown_ok h f sz a' h' :
  frame_ok f →
  grown h f = Ret (sz, Some a', h') →
  (count f < sz ≤ INT_MAX)%Z
  ∧ Z.of_nat (length (cells a')) = sz
  ∧ (∃ a, array f = Some a ∧ base a' = base a)
  ∧ live h' = live h.
Proof.
  intros Hf [(? & -> & Ha & ->)|(Hc & -> & Hr & Hre)]%grown_inv.
  - pose proof (arraysz_range f Hf). pose proof (array_size f Hf a' (eq_sym Ha)).
    split_and!; try done; try lia. by exists a'.
  - pose proof (arraysz_range f Hf). pose proof (count_range f Hf).
    destruct (frame_ok_array f Hf) as [a Ha]; [lia|].
    pose proof (realloc_length _ _ _ _ _ Hre) as Hlen.
    revert Hre. rewrite Ha. unfold enif_realloc.
    destruct (base a) as [|b] eqn:Hb; [done|]. case_bool_decide; [|done].
    destruct (grants h (calls h)); [|done]. intros [= <- <-]. simpl.
    split_and!; try done; try lia.
    + simpl in Hlen. lia.
    + exists a. by rewrite Hb.
Qed.

(** [add_element] keeps the innermost frame in good order, and neither the
    blocks it owns nor the set of live blocks change. *)
Lemma add_element_frame_ok st t f next st' :
  c st = f :: next →
  frame_ok f →
  add_element st t = Ret st' →
  ∃ f',
    c st' = f' :: next ∧ frame_ok f'
    ∧ self f' = self f
    ∧ (∃ a a', array f = Some a ∧ array f' = Some a' ∧ base a' = base a)
    ∧ (arraysz f ≤ arraysz f')%Z
    ∧ (base <$> array f = Some Auto → arraysz f' = arraysz f)
    ∧ live (env st') = live (env st)
    ∧ grants (env st') = grants (env st)
    ∧ calls (env st) ≤ calls (env st') ≤ S (calls (env st)).
Proof.
  intros Hc Hf Hadd.
  destruct (add_element_effect _ _ _ _ _ Hc Hadd)
    as (f' & Hc' & _ & Hself & Hkey & Hput & Hrest & _).
  destruct (add_element_inv _ _ _ _ _ Hc Hadd)
    as (sz & arr & h & f'' & Hg & Hp & ->).
  simpl in Hc'. injection Hc' as <-.
  exists f''. split; [done|].
  pose proof (grown_allocator _ _ _ _ _ Hg) as (Hgr & Hcalls & _ & _).
  assert (∃ a1 a2, arr = Some a1 ∧ array f'' = Some a2
                   ∧ base a2 = base a1 ∧ length (cells a2) = length (cells a1)
                   ∧ arraysz f'' = sz) as (a1 & a2 & -> & Ha2 & Hb2 & Hl2 & Hsz).
  { apply placed_inv in Hp. destruct (key f).
    - destruct Hp as (k & arr' & _ & (a & -> & _ & ->)%store_inv & ->).
      eexists _, _. simpl. split_and!; [done..| |done]. simpl. by rewrite length_insert.
    - destruct Hp as (arr' & (a & -> & _ & ->)%store_inv & _ & ->).
      eexists _, _. simpl. split_and!; [done..| |done]. simpl. by rewrite length_insert. }
  destruct (grown_ok _ _ _ _ _ Hf Hg) as (Hroom & Hlen & (a & Ha & Hb) & Hlive).
  pose proof (count_range f Hf). pose proof (arraysz_range f Hf).
  assert (count f'' ≤ count f + 1)%Z as Hcnt.
  { destruct (key f); destruct Hput as [-> _]; lia. }
  assert (0 ≤ count f ≤ count f'')%Z as Hcnt'.
  { destruct (key f); destruct Hput as [-> _]; lia. }
  split_and!; simpl; try done; try lia.
  - constructor.
    + rewrite Hsz. pose proof (key_count f Hf).
      destruct (key f); destruct Hput as [-> _]; lia.
    + rewrite Hsz. lia.
    + by rewrite Hkey.
    + intros a3. rewrite Ha2. intros [= <-]. rewrite Hsz, Hl2. done.
    + intros i Hi.
      destruct (decide (i = if key f then count f - 1 else count f)%Z) as [->|Hne].
      * destruct (key f).
        -- destruct Hput as (_ & k & _ & ->). done.
        -- destruct Hput as (_ & ->). done.
      * rewrite Hrest by done. apply (slots_set f Hf).
        destruct (key f); destruct Hput as [Hput _]; lia.
  - exists a, a2. split_and!; try done. by rewrite Hb2.
  - rewrite Hsz. destruct (grown_inv _ _ _ _ _ Hg) as [(_ & -> & _)|(_ & -> & _)]; lia.
  - rewrite Ha. simpl. intros [= Hauto]. rewrite Hsz.
    destruct (grown_inv _ _ _ _ _ Hg) as [(_ & -> & _)|(_ & _ & _ & Hre)]; [done|].
    revert Hre. rewrite Ha. unfold enif_realloc. by rewrite Hauto.
Qed.

End FrameInvariant.

(** ** The invariant of the container stack *)

Section StateInvariant.

Implicit Types (st : state_t) (t : term) (f : container_t) (L : gset nat).

Lemma stack_blocks_cons f cs :
  stack_blocks (f :: cs) = frame_blocks f ++ stack_blocks cs.
Proof. done. Qed.

Lemma stack_blocks_app cs1 cs2 :
  stack_blocks (cs1 ++ cs2) = stack_blocks cs1 ++ stack_blocks cs2.
Proof. unfold stack_blocks. by rewrite fmap_app, concat_app. Qed.

Lemma frame_blocks_root f : is_root f → frame_blocks f = [].
Proof.
  intros (Hs & _ & a & Ha & Hb). unfold frame_blocks.
  rewrite Hs, Ha. simpl. by rewrite Hb.
Qed.

Lemma frame_blocks_same f f' a a' :
  self f' = self f → array f = Some a → array f' = Some a' → base a' = base a →
  frame_blocks f' = frame_blocks f.
Proof.
  intros Hs Ha Ha' Hb. unfold frame_blocks. rewrite Hs, Ha, Ha'. simpl.
  by rewrite Hb.
Qed.

(** The innermost frame of a state in good order: the root when it is the
    only frame, a pushed frame above a stack in good order otherwise. *)
Lemma state_ok_top L st :
  state_ok L st →
  ∃ f next, c st = f :: next ∧ frame_ok f
    ∧ ((is_root f ∧ next = [])
       ∨ (is_pushed f ∧ ∃ frames root,
             next = frames ++ [root] ∧ is_root root ∧ Forall is_pushed frames)).
Proof.
  intros [(frames & root & Hc & Hroot & Hfr) Hok _ _ _ _].
  destruct frames as [|f frames]; simpl in Hc.
  - exists root, []. rewrite Hc in Hok. apply Forall_cons in Hok as [Hok _].
    split_and!; [done..|]. by left.
  - exists f, (frames ++ [root]). rewrite Hc in Hok.
    apply Forall_cons in Hok as [Hok _]. apply Forall_cons in Hfr as [Hf Hfr].
    split_and!; [done..|]. right. split; [done|]. by exists frames, root.
Qed.

Lemma state_ok_request L st :
  state_ok L st → state_ok L (with_env st (request (env st))).
Proof.
  intros [H1 H2 H3 H4 H5 H6]. constructor; simpl; try done.
  intros b Hb. apply H6 in Hb. lia.
Qed.

Lemma add_element_state_ok L st t st' :
  state_ok L st → add_element st t = Ret st' → state_ok L st'.
Proof.
  intros Hst Hadd.
  destruct (state_ok_top _ _ Hst) as (f & next & Hc & Hf & Htop).
  destruct (add_element_frame_ok _ _ _ _ _ Hc Hf Hadd)
    as (f' & Hc' & Hf' & Hself & (a & a' & Ha & Ha' & Hb) & _ & Hauto
        & Hlive & Hgr & Hcalls).
  pose proof (frame_blocks_same _ _ _ _ Hself Ha Ha' Hb) as Hblocks.
  destruct Hst as [_ Hok H3 H4 H5 H6].
  rewrite Hc in Hok, H3, H4, H5. apply Forall_cons in Hok as [_ Hok].
  rewrite stack_blocks_cons in H3, H4, H5.
  constructor; rewrite ?Hc', ?stack_blocks_cons, ?Hblocks, ?Hlive; try done.
  - destruct Htop as [[(Hs & Hsz & a0 & Ha0 & Hb0) ->]
                     |[[Hs Harr] (frames & root & -> & Hroot & Hfr)]].
    + exists [], f'. split_and!; [done| |done].
      assert (a0 = a) as -> by congruence.
      split_and!; [congruence| |].
      * rewrite <- Hsz. apply Hauto. rewrite Ha. simpl. by rewrite Hb0.
      * exists a'. split; [done|]. congruence.
    + exists (f' :: frames), root. split_and!; [done..|].
      apply Forall_cons. split; [|done]. split.
      * destruct Hs as [b Hs]. exists b. congruence.
      * intros a1. rewrite Ha'. intros [= <-]. rewrite Hb. by apply Harr.
  - by apply Forall_cons.
  - intros b Hb'. apply H6 in Hb'. lia.
Qed.
 

Lemma frame_ok_fresh b (a : option nat) :
  frame_ok (Container (Heap b) 0 16
              ((λ b', Block (Heap b') (replicate (Z.to_nat 16) None)) <$> a) false).
Proof.
  constructor; simpl; try done; try lia.
  intros a0. destruct a; simpl; [|done]. by intros [= <-].
Qed.

Lemma state_ok_fresh L st n :
  state_ok L st → calls (env st) ≤ n →
  (n ∉ live (env st)) ∧ (n ∉ L) ∧ (n ∉ stack_blocks (c st)).
Proof.
  intros [_ _ _ H4 _ H6] Hn.
  assert (n ∉ live (env st)) as Hnl.
  { intros Hx. apply H6 in Hx. lia. }
  split; [done|]. rewrite H4 in Hnl. set_solver.
Qed.

Lemma handle_start_state_ok L st r st' :
  state_ok L st → handle_start st = Ret (r, st') → state_ok L st'.
Proof.
  intros Hst. unfold handle_start, enif_alloc.
  destruct (state_ok_fresh _ _ (calls (env st)) Hst) as (Hb1 & Hb2 & Hb3); [lia|].
  destruct (state_ok_fresh _ _ (S (calls (env st))) Hst) as (Ha1 & Ha2 & Ha3); [lia|].
  destruct Hst as [(frames & root & Hc & Hroot & Hfr) Hok H3 H4 H5 H6].
  destruct (grants (env st) (calls (env st))); [|done]. simpl.
  destruct (grants (env st) (S (calls (env st)))); simpl; intros [= <- <-].
  - constructor; cbn [c env live calls].
    + exists (Container (Heap (calls (env st))) 0 16
                (Some (Block (Heap (S (calls (env st)))) (replicate (Z.to_nat 16) None)))
                false :: frames), root.
      rewrite Hc. split_and!; [done..|]. apply Forall_cons. split; [|done].
      split; simpl; [by eexists|]. intros a [= <-]. by eexists.
    + apply Forall_cons. split; [|done].
      apply (frame_ok_fresh _ (Some (S (calls (env st))))).
    + rewrite stack_blocks_cons. unfold frame_blocks at 1. simpl.
      apply NoDup_cons. split.
      { intros [Hx|Hx]%elem_of_cons; [lia|done]. }
      apply NoDup_cons. split; [done|done].
    + rewrite stack_blocks_cons. unfold frame_blocks at 1. simpl.
      rewrite H4. set_solver.
    + rewrite stack_blocks_cons. unfold frame_blocks at 1. simpl.
      intros b [->|[->|Hb]%elem_of_cons]%elem_of_cons; [done..|]. by apply H5.
    + intros b. rewrite !elem_of_union, !elem_of_singleton.
      intros [->|[->|Hb%H6]]; lia.
  - constructor; cbn [c env live calls].
    + exists (Container (Heap (calls (env st))) 0 16 None false :: frames), root.
      rewrite Hc. split_and!; [done..|]. apply Forall_cons. split; [|done].
      split; simpl; [by eexists|]. done.
    + apply Forall_cons. split; [|done]. apply (frame_ok_fresh _ None).
    + rewrite stack_blocks_cons. unfold frame_blocks at 1. simpl.
      apply NoDup_cons. split; [done|done].
    + rewrite stack_blocks_cons. unfold frame_blocks at 1. simpl.
      rewrite H4. set_solver.
    + rewrite stack_blocks_cons. unfold frame_blocks at 1. simpl.
      intros b [->|Hb]%elem_of_cons; [done|]. by apply H5.
    + intros b. simpl. rewrite elem_of_union, elem_of_singleton.
      intros [->|Hb%H6]; lia.
Qed.

(** Popping the innermost frame leaves a state in good order in which the
    blocks of that frame count as allocated beforehand. *)
Lemma state_ok_pop L st f next :
  state_ok L st → c st = f :: next → next ≠ [] →
  state_ok (L ∪ list_to_set (frame_blocks f)) (State (env st) next (errmsg st))
  ∧ is_pushed f
  ∧ NoDup (frame_blocks f)
  ∧ (∀ b, b ∈ frame_blocks f → (b ∉ L) ∧ (b ∉ stack_blocks next)).
Proof.
  intros [(frames & root & Hc & Hroot & Hfr) Hok H3 H4 H5 H6] Hc' Hne.
  rewrite Hc' in *. destruct frames as [|f0 frames]; simpl in Hc.
  { injection Hc as _ ->. done. }
  injection Hc as <- ->.
  apply Forall_cons in Hfr as [Hf Hfr]. apply Forall_cons in Hok as [_ Hok].
  rewrite stack_blocks_cons in H3, H4, H5.
  apply NoDup_app in H3 as (Hnd & Hdisj & Hnd').
  split_and!; [|done|done|].
  - constructor; simpl; try done.
    + by exists frames, root.
    + rewrite H4, list_to_set_app_L. set_solver.
    + intros b Hb [Hb'|Hb']%elem_of_union.
      * eapply H5; [|done]. apply elem_of_app. by right.
      * apply elem_of_list_to_set in Hb'. by eapply Hdisj.
  - intros b Hb. split; [|by apply Hdisj].
    apply H5, elem_of_app. by left.
Qed.

Lemma handle_end_state_ok L st r st' :
  state_ok L st → handle_end st = Ret (r, st') → state_ok L st'.
Proof.
  intros Hst. unfold handle_end.
  destruct (c st) as [|f next] eqn:Hc; [done|].
  destruct (enif_make_list_from_array _ _) as [l|]; simpl; [|done].
  destruct next as [|f1 next].
  { (* closing the dummy container frees automatic storage *)
    destruct (state_ok_top _ _ Hst) as (f' & next' & Hc' & _ & Htop).
    rewrite Hc in Hc'. injection Hc' as <- <-.
    destruct Htop as [[(Hs & _) _]|[_ (frames & root & Hn & _)]].
    - rewrite add_element_nil by done. simpl.
      destruct (array f) as [a|]; simpl.
      + destruct (enif_free _ _); simpl; [|done]. by rewrite Hs.
      + by rewrite Hs.
    - by destruct frames. }
  destruct (state_ok_pop _ _ _ _ Hst Hc) as (Hpop & [[b Hself] Harr] & Hnd & Hnew); [done|].
  destruct (add_element _ l) as [st2|] eqn:Hadd; simpl; [|done].
  apply (add_element_state_ok _ _ _ _ Hpop) in Hadd as [H1 H2 H3 H4 H5 H6].
  assert (stack_blocks (c st2) ## frame_blocks f) as Hdisj.
  { intros x Hx Hx'. eapply H5; [done|]. set_solver. }
  unfold frame_blocks in *. rewrite Hself in *. simpl in *.
  destruct (array f) as [a|] eqn:Ha; simpl in *.
  - destruct (Harr a) as [b' Hb']; [done|]. rewrite Hb' in *. simpl in *.
    apply NoDup_cons in Hnd as [Hbb' _].
    rewrite bool_decide_eq_true_2 by (rewrite H4; set_solver). simpl.
    rewrite bool_decide_eq_true_2 by (rewrite H4; set_solver). simpl.
    intros [= <- <-].
    assert ((b ∉ L) ∧ (b' ∉ L)) as [Hb1 Hb2].
    { split; apply Hnew; set_solver. }
    constructor; simpl; try done.
    + rewrite H4. set_solver.
    + intros x Hx. specialize (H5 x Hx). set_solver.
    + intros x Hx. apply H6. set_solver.
  - rewrite bool_decide_eq_true_2 by (rewrite H4; set_solver). simpl.
    intros [= <- <-].
    assert (b ∉ L) as Hb1.
    { apply Hnew; set_solver. }
    constructor; simpl; try done.
    + rewrite H4. set_solver.
    + intros x Hx. specialize (H5 x Hx). set_solver.
    + intros x Hx. apply H6. set_solver.
Qed.

Lemma handle_map_key_state_ok L st s r st' :
  state_ok L st → handle_map_key st s = Ret (r, st') → state_ok L st'.
Proof.
  intros Hst. unfold handle_map_key, enif_alloc_binary.
  destruct (grants _ _); simpl; [|done].
  apply state_ok_request in Hst.
  destruct (state_ok_top _ _ Hst) as (f & next & Hc & Hf & _).
  destruct (add_element _ _) as [st1|] eqn:Hadd; simpl; [|done].
  destruct (add_element_effect _ _ _ _ _ Hc Hadd) as (f' & Hc' & _ & _ & _ & Hput & _).
  apply (add_element_state_ok _ _ _ _ Hst) in Hadd as [H1 H2 H3 H4 H5 H6].
  rewrite Hc' in *. intros [= <- <-].
  apply Forall_cons in H2 as [Hf' H2].
  set (f'' := Container (self f') (count f') (arraysz f') (array f') true).
  assert (frame_blocks f'' = frame_blocks f') as Hbl by done.
  constructor; simpl; rewrite ?stack_blocks_cons, ?Hbl; try done.
  - destruct H1 as (frames & root & Hsh & Hroot & Hfr).
    destruct frames as [|f0 frames]; simpl in Hsh.
    + injection Hsh as <- ->. exists [], f''. done.
    + injection Hsh as <- ->. apply Forall_cons in Hfr as [Hf0 Hfr].
      exists (f'' :: frames), root. split_and!; [done..|]. by apply Forall_cons.
  - apply Forall_cons. split; [|done].
    destruct Hf' as [G1 G2 G3 G4 G5]. constructor; simpl; try done.
    intros _. pose proof (key_count f Hf) as Hk. pose proof (count_range f Hf).
    destruct (key f); destruct Hput as [-> _]; [by apply Hk|lia].
Qed.

Lemma callbacks_state_ok L e st r st' :
  state_ok L st → callbacks e st = Ret (r, st') → state_ok L st'.
Proof.
  intros Hst. destruct e; simpl.
  - unfold handle_null.
    destruct (add_element _ _) as [st1|] eqn:Hadd; simpl; [|done].
    intros [= <- <-]. by eapply add_element_state_ok.
  - unfold handle_boolean.
    destruct boolVal;
      (destruct (add_element _ _) as [st1|] eqn:Hadd; simpl; [|done]);
      intros [= <- <-]; by eapply add_element_state_ok.
  - unfold handle_integer.
    destruct (add_element _ _) as [st1|] eqn:Hadd; simpl; [|done].
    intros [= <- <-]. by eapply add_element_state_ok.
  - unfold handle_double.
    destruct (add_element _ _) as [st1|] eqn:Hadd; simpl; [|done].
    intros [= <- <-]. by eapply add_element_state_ok.
  - unfold handle_string, enif_alloc_binary.
    apply state_ok_request in Hst.
    destruct (grants _ _); simpl.
    + destruct (add_element _ _) as [st1|] eqn:Hadd; simpl; [|done].
      intros [= <- <-]. by eapply add_element_state_ok.
    + by intros [= <- <-].
  - by apply handle_start_state_ok.
  - by apply handle_map_key_state_ok.
  - by apply handle_end_state_ok.
  - by apply handle_start_state_ok.
  - by apply handle_end_state_ok.
Qed.

Lemma deliver_state_ok L evs final st ys st' :
  state_ok L st → deliver evs final st = Ret (ys, st') → state_ok L st'.
Proof.
  revert st. induction evs as [|e evs IH]; simpl; intros st Hst.
  - by intros [= <- <-].
  - destruct (callbacks e st) as [[r st1]|] eqn:He; simpl; [|done].
    apply (callbacks_state_ok _ _ _ _ _ Hst) in He.
    case_bool_decide; [by intros [= <- <-]|]. by apply IH.
Qed.

Lemma initial_state_ok h :
  (∀ b, b ∈ live h → b < calls h) → state_ok (live h) (initial_state h).
Proof.
  intros Hh. constructor; simpl; try done.
  - exists [], root_frame. split_and!; [done| |done].
    split_and!; [done..|]. by eexists.
  - apply Forall_cons. split; [|done].
    constructor; simpl; try done; try lia.
    intros a [= <-]. done.
  - apply NoDup_nil_2.
  - set_solver.
  - intros b Hb. by apply elem_of_nil in Hb.
Qed.

(** [cleanup_containers] frees every frame but the last, without fault. *)
Lemma cleanup_frames L frames root h :
  Forall is_pushed frames →
  NoDup (stack_blocks frames) →
  live h = L ∪ list_to_set (stack_blocks frames) →
  (∀ b, b ∈ stack_blocks frames → b ∉ L) →
  ∃ h', cleanup_containers h (frames ++ [root]) = Ret h'
        ∧ live h' = L ∧ calls h' = calls h ∧ grants h' = grants h.
Proof.
  revert h. induction frames as [|f frames IH]; intros h Hfr Hnd Hlive Hnew.
  { exists h. simpl in *. split_and!; [done| |done..]. rewrite Hlive. set_solver. }
  apply Forall_cons in Hfr as [[[b Hself] Harr] Hfr].
  rewrite stack_blocks_cons in Hnd, Hlive, Hnew.
  apply NoDup_app in Hnd as (Hnd & Hdisj & Hnd').
  assert (∀ x, x ∈ frame_blocks f → (x ∉ L) ∧ (x ∉ stack_blocks frames)) as Hf.
  { intros x Hx. split; [apply Hnew; set_solver|by apply Hdisj]. }
  assert (∀ h1, live h1 = L ∪ list_to_set (stack_blocks frames) →
            calls h1 = calls h → grants h1 = grants h →
            ∃ h', cleanup_containers h1 (frames ++ [root]) = Ret h'
                  ∧ live h' = L ∧ calls h' = calls h ∧ grants h' = grants h) as Hrest.
  { intros h1 Hl1 Hc1 Hg1. rewrite <- Hc1, <- Hg1. apply IH; try done.
    intros x Hx. apply Hnew. set_solver. }
  change ((f :: frames) ++ [root]) with (f :: (frames ++ [root])).
  destruct (frames ++ [root]) as [|f1 next] eqn:Hnext; [by destruct frames|].
  cbn [cleanup_containers]. unfold frame_blocks in *. rewrite Hself in *.
  destruct (array f) as [a|] eqn:Ha; simpl in *.
  - destruct (Harr a) as [b' Hb']; [done|]. rewrite Hb' in *. simpl in *.
    apply NoDup_cons in Hnd as [Hbb' _].
    destruct (Hf b) as [? ?]; [set_solver|].
    destruct (Hf b') as [? ?]; [set_solver|].
    rewrite bool_decide_eq_true_2 by (rewrite Hlive; set_solver). simpl.
    rewrite bool_decide_eq_true_2 by (rewrite Hlive; set_solver). simpl.
    apply Hrest; simpl; [|done..]. rewrite Hlive. set_solver.
  - destruct (Hf b) as [? ?]; [set_solver|].
    rewrite bool_decide_eq_true_2 by (rewrite Hlive; set_solver). simpl.
    apply Hrest; simpl; [|done..]. rewrite Hlive. set_solver.
Qed.

Lemma cleanup_containers_ok L st :
  state_ok L st →
  ∃ h', cleanup_containers (env st) (c st) = Ret h'
        ∧ live h' = L ∧ calls h' = calls (env st) ∧ grants h' = grants (env st).
Proof.
  intros [(frames & root & Hc & Hroot & Hfr) Hok H3 H4 H5 H6].
  rewrite Hc in *. rewrite stack_blocks_app in H3, H4, H5.
  assert (stack_blocks [root] = []) as Hr.
  { unfold stack_blocks. simpl. by rewrite frame_blocks_root, app_nil_r. }
  rewrite Hr, app_nil_r in H3, H4, H5.
  by apply cleanup_frames.
Qed.


End StateInvariant.

(** ** Frames that hold a known sequence of terms *)

Section OpenFrames.

Implicit Types (st : state_t) (t : term) (f : container_t) (ts : list term).

(** Closing a frame yields the terms it holds, in the order of the slots. *)
Lemma holds_make_list f ts :
  holds f ts → enif_make_list_from_array (array f) (count f) = Ret (TList ts).
Proof.
  intros [Hcnt Hslots]. unfold enif_make_list_from_array.
  rewrite bool_decide_eq_false_2 by lia.
  case_bool_decide as Hz.
  { destruct ts; [done|]. simpl in Hcnt. lia. }
  destruct (lookup_lt_is_Some_2 ts (length ts - 1)) as [t Ht]; [lia|].
  pose proof (Hslots _ _ Ht) as Hlast.
  apply load_inv in Hlast as (a & Ha & Hlast & _). rewrite Ha in *. simpl.
  rewrite bool_decide_eq_true_2 by lia.
  rewrite (mapM_Some_2 id _ ts); [done|].
  apply Forall2_same_length_lookup_2.
  { rewrite length_take. lia. }
  intros i x y [Hx Hi]%lookup_take_Some Hy.
  apply Hslots, load_inv in Hy as (a' & [= <-] & _ & Hy).
  rewrite Nat2Z.id in Hy. simpl. congruence.
Qed.

Lemma skip_0 h : skip 0 h = h.
Proof. by destruct h. Qed.

Lemma skip_skip k k' h : skip k (skip k' h) = skip (k + k') h.
Proof. unfold skip. simpl. f_equal. lia. Qed.

Lemma plentiful_skip k h : plentiful h → plentiful (skip k h).
Proof.
  intros [Hg Hl]. split; simpl; [done|].
  intros b Hb%Hl. lia.
Qed.

(** With an allocator that grants the request and a count the doubled size
    can express, [add_element] returns. *)
Lemma add_element_returns st f next a b t :
  c st = f :: next → frame_ok f →
  array f = Some a → base a = Heap b → b ∈ live (env st) →
  grants (env st) (calls (env st)) = true →
  (count f < 2 ^ 30)%Z →
  ∃ st' k, add_element st t = Ret st' ∧ env st' = skip k (env st).
Proof.
  intros Hc Hf Ha Hb Hlive Hg Hcnt.
  pose proof (count_range f Hf). pose proof (arraysz_range f Hf).
  pose proof (array_size f Hf a Ha) as Hlen.
  assert (∃ sz arr k, grown (env st) f = Ret (sz, Some arr, skip k (env st))
            ∧ (count f < Z.of_nat (length (cells arr)))%Z
            ∧ (∀ j, (0 ≤ j < count f)%Z → is_Some (load (Some arr) j)))
    as (sz & arr & k & Hgrown & Hroom & Hset).
  { unfold grown. case_bool_decide.
    - rewrite int_in_range by int_lia. simpl. unfold enif_realloc.
      rewrite Ha, Hb, Hg. rewrite bool_decide_eq_true_2 by done. simpl.
      eexists _, _, 1. split_and!; [done| |].
      + simpl. rewrite length_resize. lia.
      + intros j Hj. destruct (slots_set f Hf j Hj) as [tj Htj].
        rewrite Ha in Htj. apply load_inv in Htj as (a0 & [= <-] & ? & Htj).
        exists tj. unfold load. simpl. rewrite bool_decide_eq_true_2 by lia.
        rewrite lookup_resize by lia. by rewrite Htj.
    - exists (arraysz f), a, 0. rewrite skip_0, Ha. split_and!; [done|lia|].
      intros j Hj. rewrite <- Ha. by apply (slots_set f Hf). }
  rewrite (add_element_cons _ _ _ _ Hc), Hgrown. simpl.
  unfold placed. destruct (key f) eqn:Hk.
  - pose proof (key_count f Hf Hk).
    rewrite int_in_range by int_lia. cbn [mbind option_bind].
    destruct (Hset (count f - 1)%Z) as [kt ->]; [lia|]. cbn [mbind option_bind].
    unfold store. simpl.
    rewrite bool_decide_eq_true_2 by lia. simpl. by eexists _, _.
  - unfold store. simpl. rewrite bool_decide_eq_true_2 by lia. simpl.
    rewrite int_in_range by int_lia. simpl. by eexists _, _.
Qed.

Lemma open_frame_push st b a ts next t :
  open_frame st b a ts false next →
  plentiful (env st) →
  (Z.of_nat (length ts) < 2 ^ 30)%Z →
  ∃ st' k, add_element st t = Ret st'
    ∧ env st' = skip k (env st) ∧ errmsg st' = errmsg st
    ∧ open_frame st' b a (ts ++ [t]) false next.
Proof.
  intros (f & arr & Hc & Hf & [Hcnt Hslots] & Hkey & Hself & Ha & Hb & Hla & Hlb & Hab)
         [Hg _] Hlen.
  destruct (add_element_returns st f next arr a t) as (st' & k & Hadd & Henv);
    [done..|lia|].
  destruct (add_element_frame_ok _ _ _ _ _ Hc Hf Hadd)
    as (f' & Hc' & Hf' & Hself' & (a0 & a' & Ha0 & Ha' & Hb') & _ & _ & Hlive & _).
  destruct (add_element_effect _ _ _ _ _ Hc Hadd)
    as (f'' & Hc'' & Herr & _ & Hk' & Hput & Hrest & _).
  rewrite Hc' in Hc''. injection Hc'' as <-. rewrite Hkey in Hput, Hrest.
  destruct Hput as [Hcnt' Hnew].
  exists st', k. split_and!; [done..|].
  exists f', a'. rewrite Hlive. split_and!; try done; try congruence.
  split.
  - rewrite Hcnt', Hcnt, length_app. simpl. lia.
  - intros i t0 Hi.
    destruct (decide (i < length ts)) as [Hlt|Hge].
    + rewrite lookup_app_l in Hi by done.
      rewrite Hrest by lia. by apply Hslots.
    + rewrite lookup_app_r in Hi by lia.
      apply list_lookup_singleton_Some in Hi as [Hi <-].
      replace (Z.of_nat i) with (count f) by lia. done.
Qed.

Lemma open_frame_fuse st b a ts kt next t :
  open_frame st b a (ts ++ [kt]) true next →
  plentiful (env st) →
  (Z.of_nat (length ts) + 1 < 2 ^ 30)%Z →
  ∃ st' k, add_element st t = Ret st'
    ∧ env st' = skip k (env st) ∧ errmsg st' = errmsg st
    ∧ open_frame st' b a (ts ++ [TTuple2 kt t]) false next.
Proof.
  intros (f & arr & Hc & Hf & [Hcnt Hslots] & Hkey & Hself & Ha & Hb & Hla & Hlb & Hab)
         [Hg _] Hlen.
  rewrite length_app in Hcnt. simpl in Hcnt.
  destruct (add_element_returns st f next arr a t) as (st' & k & Hadd & Henv);
    [done..|lia|].
  destruct (add_element_frame_ok _ _ _ _ _ Hc Hf Hadd)
    as (f' & Hc' & Hf' & Hself' & (a0 & a' & Ha0 & Ha' & Hb') & _ & _ & Hlive & _).
  destruct (add_element_effect _ _ _ _ _ Hc Hadd)
    as (f'' & Hc'' & Herr & _ & Hk' & Hput & Hrest & _).
  rewrite Hc' in Hc''. injection Hc'' as <-. rewrite Hkey in Hput, Hrest.
  destruct Hput as (Hcnt' & k0 & Hold & Hnew).
  assert (k0 = kt) as ->.
  { specialize (Hslots (length ts) kt).
    rewrite lookup_app_r, Nat.sub_diag in Hslots by lia.
    specialize (Hslots eq_refl).
    replace (count f - 1)%Z with (Z.of_nat (length ts)) in Hold by lia.
    congruence. }
  exists st', k. split_and!; [done..|].
  exists f', a'. rewrite Hlive. split_and!; try done; try congruence.
  split.
  - rewrite Hcnt', Hcnt, length_app. simpl. lia.
  - intros i t0 Hi.
    destruct (decide (i < length ts)) as [Hlt|Hge].
    + rewrite lookup_app_l in Hi by done.
      rewrite Hrest by lia. apply Hslots. by rewrite lookup_app_l.
    + rewrite lookup_app_r in Hi by lia.
      apply list_lookup_singleton_Some in Hi as [Hi <-].
      replace (Z.of_nat i) with (count f - 1)%Z by lia. done.
Qed.

Lemma add_element_allocator st t st' :
  add_element st t = Ret st' →
  grants (env st') = grants (env st)
  ∧ calls (env st) ≤ calls (env st')
  ∧ live (env st') ⊆ {[calls (env st)]} ∪ live (env st).
Proof.
  destruct (c st) as [|f next] eqn:Hc.
  - rewrite add_element_nil by done. intros [= <-].
    split_and!; [done|lia|set_solver].
  - intros (sz & arr & h & f' & Hg & _ & ->)%(add_element_inv _ _ _ _ _ Hc).
    apply grown_allocator in Hg as (? & ? & _ & ?). simpl.
    split_and!; [done|lia|done].
Qed.

(** Blocks that are not the array of the frame do not matter to the growth
    step. *)
Lemma grown_with_blocks (X : gset nat) h f :
  (∀ a b, array f = Some a → base a = Heap b → b ∉ X) →
  grown (Allocator (X ∪ live h) (calls h) (grants h)) f
  = (λ r, (r.1, Allocator (X ∪ live r.2) (calls r.2) (grants r.2))) <$> grown h f.
Proof.
  intros HX. unfold grown. case_bool_decide; [|done].
  destruct (int _) as [sz|]; simpl; [|done].
  unfold enif_realloc. destruct (array f) as [a|] eqn:Ha.
  - destruct (base a) as [|b] eqn:Hb; [done|]. simpl.
    specialize (HX a b eq_refl Hb).
    destruct (decide (b ∈ live h)) as [Hin|Hout].
    + rewrite !bool_decide_eq_true_2 by set_solver.
      by destruct (grants h (calls h)).
    + rewrite !bool_decide_eq_false_2 by set_solver. done.
  - unfold enif_alloc. simpl. destruct (grants h (calls h)); simpl; [|done].
    do 3 f_equal. set_solver.
Qed.

Lemma add_element_with_blocks (X : gset nat) st t :
  (∀ f next a b, c st = f :: next → array f = Some a → base a = Heap b → b ∉ X) →
  add_element (with_blocks X st) t = with_blocks X <$> add_element st t.
Proof.
  intros HX. unfold add_element, with_blocks at 1. simpl.
  destruct (c st) as [|f next] eqn:Hc; [done|].
  rewrite grown_with_blocks by (intros a b; by apply (HX f next)).
  destruct (grown (env st) f) as [[[sz arr] h]|]; simpl; [|done].
  by destruct (placed f sz arr t).
Qed.

Lemma open_frame_with_env st h b a ts k next :
  open_frame st b a ts k next → live h = live (env st) →
  open_frame (with_env st h) b a ts k next.
Proof.
  intros (f & arr & H) Hl. exists f, arr. simpl. rewrite Hl. done.
Qed.

Lemma open_frame_top_below st b a ts k next :
  open_frame st b a ts k next → plentiful (env st) → top_below st.
Proof.
  intros (f & arr & Hc & _ & _ & _ & _ & Ha & Hb & Hla & _) [_ Hl].
  intros f' next' a' b'. rewrite Hc. intros [= <- <-]. rewrite Ha.
  intros [= <-]. rewrite Hb. intros [= <-]. by apply Hl.
Qed.

(** [handle_map_key] sets the flag of the frame it has just stored into. *)
Lemma open_frame_set_key st b a ts t next :
  open_frame st b a (ts ++ [t]) false next →
  ∃ f next', c st = f :: next'
    ∧ open_frame (State (env st)
                    (Container (self f) (count f) (arraysz f) (array f) true :: next')
                    (errmsg st)) b a (ts ++ [t]) true next.
Proof.
  intros (f & arr & Hc & Hf & [Hcnt Hslots] & Hkey & Hself & Ha & Hb & Hla & Hlb & Hab).
  exists f, next. split; [done|].
  exists (Container (self f) (count f) (arraysz f) (array f) true), arr. simpl.
  split_and!; try done.
  destruct Hf as [G1 G2 G3 G4 G5]. constructor; simpl; try done.
  intros _. rewrite Hcnt, length_app. simpl. lia.
Qed.

(** The frame made by [handle_start] when both requests are granted. *)
Lemma handle_start_open st :
  plentiful (env st) →
  ∃ st', handle_start st = Ret (1%Z, st')
    ∧ open_frame st' (calls (env st)) (S (calls (env st))) [] false (c st)
    ∧ plentiful (env st') ∧ errmsg st' = errmsg st
    ∧ live (env st') = {[S (calls (env st))]} ∪ ({[calls (env st)]} ∪ live (env st))
    ∧ calls (env st') = 2 + calls (env st)
    ∧ grants (env st') = grants (env st).
Proof.
  intros [Hg Hl]. unfold handle_start, enif_alloc. rewrite Hg. simpl. rewrite Hg.
  eexists. split; [done|]. simpl. split_and!; try done.
  - eexists _, _. simpl. split_and!; try done; try set_solver; try lia.
    apply (frame_ok_fresh _ (Some (S (calls (env st))))).
  - split; simpl; [done|]. intros b. rewrite !elem_of_union, !elem_of_singleton.
    intros [->|[->|Hb%Hl]]; lia.
Qed.

(** Closing a frame opened since the state [st0]: its list is added to the
    frame below and its two blocks are given back, which leaves the state
    [st0] would reach by [add_element] alone, later in the count of
    requests. *)
Lemma handle_end_open st0 st b a ts k n :
  plentiful (env st0) → top_below st0 →
  open_frame st b a ts k (c st0) →
  live (env st) = {[a]} ∪ ({[b]} ∪ live (env st0)) →
  calls (env st) = n + calls (env st0) →
  grants (env st) = grants (env st0) →
  errmsg st = errmsg st0 →
  calls (env st0) ≤ b < calls (env st) →
  calls (env st0) ≤ a < calls (env st) →
  handle_end st
  = (st' ← add_element (with_env st0 (skip n (env st0))) (TList ts); Ret (1%Z, st')).
Proof.
  intros [Hg Hl] Htop (f & arr & Hc & Hf & Hholds & _ & Hself & Ha & Hb & _ & _ & Hab)
         Hlive Hcalls Hgrants Herr Hbr Har.
  unfold handle_end. rewrite Hc, (holds_make_list _ _ Hholds). simpl.
  assert (State (env st) (c st0) (errmsg st)
          = with_blocks ({[a]} ∪ {[b]}) (with_env st0 (skip n (env st0)))) as ->.
  { unfold with_blocks, with_env, skip. simpl. rewrite Herr. f_equal.
    destruct (env st) as [L C G]. simpl in *. subst. f_equal. set_solver. }
  rewrite add_element_with_blocks; last first.
  { intros f' next' a' b' Hc' Ha' Hb'. simpl in Hc'.
    pose proof (Htop _ _ _ _ Hc' Ha' Hb'). set_solver by lia. }
  destruct (add_element (with_env st0 _) _) as [st2|] eqn:Hadd; simpl; [|done].
  apply add_element_allocator in Hadd as (_ & _ & Hsub). simpl in Hsub.
  assert ((a ∉ live (env st2)) ∧ (b ∉ live (env st2))) as [Ha2 Hb2].
  { split; intros Hx%Hsub; apply elem_of_union in Hx as [Hx%elem_of_singleton|Hx%Hl]; lia. }
  rewrite Ha, Hb, Hself. simpl.
  rewrite bool_decide_eq_true_2 by set_solver. simpl.
  rewrite bool_decide_eq_true_2 by set_solver. simpl.
  do 2 f_equal. unfold with_env. destruct st2 as [[L2 C2 G2] c2 e2]. simpl in *.
  do 2 f_equal. set_solver.
Qed.

(** The elements of an array, one after the other. *)
Lemma deliver_elements l rest final :
  Forall builds l →
  ∀ st b a ts next,
    open_frame st b a ts false next →
    plentiful (env st) →
    (Z.of_nat (length ts + length l) ≤ 2 ^ 30)%Z →
    ∃ st' k,
      deliver (concat (events_of <$> l) ++ rest) final st = deliver rest final st'
      ∧ open_frame st' b a (ts ++ (term_of <$> l)) false next
      ∧ env st' = skip k (env st) ∧ errmsg st' = errmsg st.
Proof.
  induction 1 as [|x l Hx _ IH]; intros st b a ts next Hopen Hpl Hlen.
  { exists st, 0. rewrite skip_0, app_nil_r. done. }
  change (concat (events_of <$> x :: l))
    with (events_of x ++ concat (events_of <$> l)).
  rewrite fmap_cons, <- app_assoc. simpl in Hlen.
  destruct (Hx st (concat (events_of <$> l) ++ rest) final) as [k1 ->];
    [done|by eapply open_frame_top_below|].
  destruct (open_frame_push (with_env st (skip k1 (env st))) b a ts next (term_of x))
    as (st1 & k2 & -> & Henv1 & Herr1 & Hopen1);
    [by apply open_frame_with_env|by apply plentiful_skip|lia|].
  cbn [mbind option_bind].
  destruct (IH st1 b a (ts ++ [term_of x]) next) as (st' & k3 & -> & Hopen' & Henv' & Herr');
    [done| |rewrite length_app; simpl; lia|].
  { rewrite Henv1. by do 2 apply plentiful_skip. }
  exists st', (k3 + (k2 + k1)). rewrite <- app_assoc in Hopen'.
  simpl in Herr1. split_and!; [done..| |congruence].
  rewrite Henv', Henv1. simpl. rewrite !skip_skip. f_equal. lia.
Qed.

(** The members of an object: each key is stored and then paired with the
    term of its value. *)
Lemma deliver_members l rest final :
  Forall (λ m, builds (snd m)) l →
  ∀ st b a ts next,
    open_frame st b a ts false next →
    plentiful (env st) →
    (Z.of_nat (length ts + length l) < 2 ^ 30)%Z →
    ∃ st' k,
      deliver (concat ((λ m, EvMapKey (fst m) :: events_of (snd m)) <$> l) ++ rest)
              final st
      = deliver rest final st'
      ∧ open_frame st' b a
          (ts ++ ((λ m, TTuple2 (TBinary (stored (fst m))) (term_of (snd m))) <$> l))
          false next
      ∧ env st' = skip k (env st) ∧ errmsg st' = errmsg st.
Proof.
  induction 1 as [|[s v] l Hv _ IH]; intros st b a ts next Hopen Hpl Hlen.
  { exists st, 0. rewrite skip_0, app_nil_r. done. }
  rewrite !fmap_cons. simpl in Hlen, Hv.
  change (concat (?e :: ?es)) with (e ++ concat es).
  cbn [fst snd]. rewrite <- app_assoc.
  set (rest' := concat _ ++ rest).
  (* the key *)
  change (deliver ((EvMapKey s :: events_of v) ++ rest') final st)
    with ('(r, st') ← handle_map_key st s;
          if bool_decide (r = 0%Z) then Ret (yajl_status_client_canceled, st')
          else deliver (events_of v ++ rest') final st').
  unfold handle_map_key, enif_alloc_binary. rewrite (proj1 Hpl). simpl negb.
  cbv iota beta.
  destruct (open_frame_push (with_env st (request (env st))) b a ts next
              (TBinary (stored s)))
    as (st1 & k1 & Hadd & Henv1 & Herr1 & Hopen1);
    [by apply open_frame_with_env|by apply (plentiful_skip 1)|lia|].
  unfold stored at 1 in Hadd. unfold enif_make_binary. rewrite Hadd.
  cbn [mbind option_bind].
  destruct (open_frame_set_key _ _ _ _ _ _ Hopen1) as (f1 & next1 & -> & Hopen2).
  cbn [mbind option_bind]. rewrite bool_decide_eq_false_2 by done.
  set (st2 := State (env st1) _ (errmsg st1)) in *.
  assert (plentiful (env st2)) as Hpl2.
  { simpl. rewrite Henv1. apply plentiful_skip, (plentiful_skip 1), Hpl. }
  (* the value *)
  destruct (Hv st2 rest' final) as [k2 ->];
    [done|by eapply open_frame_top_below|].
  destruct (open_frame_fuse (with_env st2 (skip k2 (env st2))) b a ts
              (TBinary (stored s)) next (term_of v))
    as (st3 & k3 & -> & Henv3 & Herr3 & Hopen3);
    [by apply open_frame_with_env|by apply plentiful_skip|lia|].
  cbn [mbind option_bind]. subst rest'.
  destruct (IH st3 b a (ts ++ [TTuple2 (TBinary (stored s)) (term_of v)]) next)
    as (st' & k4 & -> & Hopen' & Henv' & Herr');
    [done| |rewrite length_app; simpl; lia|].
  { rewrite Henv3. by apply plentiful_skip, plentiful_skip. }
  exists st', (k4 + (k3 + (k2 + (k1 + 1)))). rewrite <- app_assoc in Hopen'.
  simpl in Herr1, Herr3. split_and!; [done..| |congruence].
  rewrite Henv', Henv3. simpl. rewrite Henv1. simpl.
  change (request (env st)) with (skip 1 (env st)).
  rewrite !skip_skip. f_equal. lia.
Qed.

End OpenFrames.

(** ** Documents are built as one term *)

Section Documents.

(** Induction on documents, with the elements and the member values as
    induction hypotheses. *)
Lemma json_induction (P : json → Prop) :
  P JNull → (∀ b, P (JBool b)) → (∀ i, P (JInteger i)) → (∀ d, P (JDouble d)) →
  (∀ s, P (JString s)) →
  (∀ elems, Forall P elems → P (JArray elems)) →
  (∀ members, Forall (λ m, P (snd m)) members → P (JObject members)) →
  ∀ j, P j.
Proof.
  intros HN HB HI HD HS HA HO. fix IH 1. intros [|b|i|d|s|elems|members].
  - apply HN.
  - apply HB.
  - apply HI.
  - apply HD.
  - apply HS.
  - apply HA. induction elems as [|x elems IHl]; constructor; [apply IH|apply IHl].
  - apply HO. induction members as [|[s v] members IHl]; constructor;
      [apply IH|apply IHl].
Qed.

Lemma with_env_skip_0 st : with_env st (skip 0 (env st)) = st.
Proof. rewrite skip_0. by destruct st. Qed.

(** A callback that only adds a term. *)
Lemma deliver_add e t rest final st :
  callbacks e st = (st' ← add_element st t; Ret (1%Z, st')) →
  deliver (e :: rest) final st = (st' ← add_element st t; deliver rest final st').
Proof.
  intros He. simpl. rewrite He. by destruct (add_element st t).
Qed.

Lemma builds_null : builds JNull.
Proof.
  intros st rest final _ _. exists 0. rewrite with_env_skip_0.
  by apply deliver_add.
Qed.

Lemma builds_bool b : builds (JBool b).
Proof.
  intros st rest final _ _. exists 0. rewrite with_env_skip_0.
  apply deliver_add. by destruct b.
Qed.

Lemma builds_integer i : builds (JInteger i).
Proof.
  intros st rest final _ _. exists 0. rewrite with_env_skip_0.
  by apply deliver_add.
Qed.

Lemma builds_double d : builds (JDouble d).
Proof.
  intros st rest final _ _. exists 0. rewrite with_env_skip_0.
  by apply deliver_add.
Qed.

Lemma builds_string s : builds (JString s).
Proof.
  intros st rest final [Hg _] _. exists 1. simpl.
  unfold handle_string, enif_alloc_binary. rewrite Hg. simpl.
  change (request (env st)) with (skip 1 (env st)).
  by destruct (add_element _ _).
Qed.

Lemma builds_array elems :
  Forall builds elems → (Z.of_nat (length elems) ≤ 2 ^ 30)%Z → builds (JArray elems).
Proof.
  intros Helems Hlen st rest final Hpl Htop.
  destruct (handle_start_open st Hpl)
    as (st1 & Hs & Hopen1 & Hpl1 & Herr1 & Hlive1 & Hcalls1 & Hgr1).
  destruct (deliver_elements elems (EvEndArray :: rest) final Helems
              st1 _ _ [] (c st) Hopen1 Hpl1 Hlen)
    as (st2 & k & Hrun & Hopen2 & Henv2 & Herr2).
  exists (k + 2).
  change (events_of (JArray elems) ++ rest)
    with (EvStartArray :: (concat (events_of <$> elems) ++ [EvEndArray]) ++ rest).
  rewrite <- app_assoc.
  change (deliver (EvStartArray :: ?evs) final st)
    with ('(r, st') ← handle_start st;
          if bool_decide (r = 0%Z) then Ret (yajl_status_client_canceled, st')
          else deliver evs final st').
  rewrite Hs. cbn [mbind option_bind]. rewrite bool_decide_eq_false_2 by done.
  change ([EvEndArray] ++ rest) with (EvEndArray :: rest). rewrite Hrun.
  change (deliver (EvEndArray :: rest) final st2)
    with ('(r, st') ← handle_end st2;
          if bool_decide (r = 0%Z) then Ret (yajl_status_client_canceled, st')
          else deliver rest final st').
  rewrite (handle_end_open st st2 _ _ _ _ (k + 2) Hpl Htop Hopen2);
    rewrite ?Henv2, ?Herr2; simpl; try done; try lia.
  by destruct (add_element _ _).
Qed.

Lemma builds_object members :
  Forall (λ m, builds (snd m)) members →
  (Z.of_nat (length members) < 2 ^ 30)%Z →
  builds (JObject members).
Proof.
  intros Hmembers Hlen st rest final Hpl Htop.
  destruct (handle_start_open st Hpl)
    as (st1 & Hs & Hopen1 & Hpl1 & Herr1 & Hlive1 & Hcalls1 & Hgr1).
  destruct (deliver_members members (EvEndMap :: rest) final Hmembers
              st1 _ _ [] (c st) Hopen1 Hpl1 Hlen)
    as (st2 & k & Hrun & Hopen2 & Henv2 & Herr2).
  exists (k + 2).
  change (events_of (JObject members) ++ rest)
    with (EvStartMap
            :: (concat ((λ m, EvMapKey (fst m) :: events_of (snd m)) <$> members)
                ++ [EvEndMap]) ++ rest).
  rewrite <- app_assoc.
  change (deliver (EvStartMap :: ?evs) final st)
    with ('(r, st') ← handle_start st;
          if bool_decide (r = 0%Z) then Ret (yajl_status_client_canceled, st')
          else deliver evs final st').
  rewrite Hs. cbn [mbind option_bind]. rewrite bool_decide_eq_false_2 by done.
  change ([EvEndMap] ++ rest) with (EvEndMap :: rest). rewrite Hrun.
  change (deliver (EvEndMap :: rest) final st2)
    with ('(r, st') ← handle_end st2;
          if bool_decide (r = 0%Z) then Ret (yajl_status_client_canceled, st')
          else deliver rest final st').
  rewrite (handle_end_open st st2 _ _ _ _ (k + 2) Hpl Htop Hopen2);
    rewrite ?Henv2, ?Herr2; simpl; try done; try lia.
  by destruct (add_element _ _).
Qed.

(** Every document whose containers can be counted is built as one term. *)
Lemma fits_builds j : fits j → builds j.
Proof.
  induction j as [|b|i|d|s|elems IH|members IH] using json_induction; intros Hfits.
  - apply builds_null.
  - apply builds_bool.
  - apply builds_integer.
  - apply builds_double.
  - apply builds_string.
  - simpl in Hfits. apply andb_True in Hfits as [Hlen Hall].
    apply bool_decide_unpack in Hlen. apply forallb_True in Hall.
    apply builds_array; [|done].
    eapply Forall_impl; [apply Forall_and; split; [exact IH|exact Hall]|].
    intros x [Hx Hf]. by apply Hx.
  - simpl in Hfits. apply andb_True in Hfits as [Hlen Hall].
    apply bool_decide_unpack in Hlen. apply forallb_True in Hall.
    apply builds_object; [|done].
    eapply Forall_impl; [apply Forall_and; split; [exact IH|exact Hall]|].
    intros x [Hx Hf]. by apply Hx.
Qed.

End Documents.

(** ** The whole decode *)

Section Decode.

Lemma deliver_app evs1 evs2 final st :
  deliver (evs1 ++ evs2) final st
  = ('(ys, st') ← deliver evs1 yajl_status_ok st;
     if bool_decide (ys = yajl_status_ok) then deliver evs2 final st'
     else Ret (ys, st')).
Proof.
  revert st. induction evs1 as [|e evs1 IH]; intros st; simpl; [done|].
  destruct (callbacks e st) as [[r st1]|]; simpl; [|done].
  case_bool_decide; [done|]. apply IH.
Qed.

(** Whatever part of the events [yajl_parse] delivers, the two calls deliver
    the events of the document. *)
Lemma run_yajl_accepts j now st :
  run_yajl (yajl_accepts j now) st = deliver (events_of j) yajl_status_ok st.
Proof.
  unfold run_yajl, yajl_parse, yajl_complete_parse. simpl. symmetry.
  rewrite <- (take_drop now (events_of j)) at 1. by rewrite deliver_app.
Qed.

(** The first term added to the dummy container lands in its one slot. *)
Lemma add_element_root h t :
  add_element (initial_state h) t
  = Ret (State h [Container Auto 1 1 (Some (Block Auto [Some t])) false] []).
Proof. done. Qed.

Lemma parse_json_accepts j now h :
  fits j → plentiful h →
  ∃ k, parse_json (yajl_accepts j now) (initial_state h)
       = Ret (None, State (skip k h)
                      [Container Auto 1 1 (Some (Block Auto [Some (term_of j)])) false] []).
Proof.
  intros Hfits Hpl.
  destruct (fits_builds j Hfits (initial_state h) [] yajl_status_ok) as [k Hk];
    [done|by intros f next a b [= <- <-] [= <-]|].
  exists k. unfold parse_json. cbn [yajl_accepts handle_ok negb].
  rewrite run_yajl_accepts. rewrite app_nil_r in Hk. rewrite Hk.
  change (with_env (initial_state h) (skip k (env (initial_state h))))
    with (initial_state (skip k h)).
  by rewrite add_element_root.
Qed.

(** A document whose containers can be counted, read by a yajl run that
    reports no error, with an allocator that grants every request: the
    result is the term of the document, and no block stays allocated. *)
Lemma decode_accepts yajl bytes j now h :
  yajl bytes = yajl_accepts j now → fits j → plentiful h →
  ∃ k, decode_1 yajl h [TBinary bytes]
       = Ret (Return (TTuple2 (TAtom "ok") (term_of j)), skip k h).
Proof.
  intros Hy Hfits Hpl.
  destruct (parse_json_accepts j now h Hfits Hpl) as [k Hk].
  exists k. unfold decode_1. cbn [enif_is_binary enif_inspect_binary negb].
  rewrite Hy. change (State h _ []) with (initial_state h). by rewrite Hk.
Qed.

End Decode.

(** ** The scenarios of the specification, by evaluation *)

Section Scenarios.

(** [{"a":1,"b":[true,null,2.5]}]; [4612811918334230528] is the bit pattern
    of [2.5]. *)
Example decode_object_scenario :
  (fst <$> decode_1
     (λ _, yajl_accepts
             (JObject [(["a"%byte], JInteger 1);
                       (["b"%byte],
                        JArray [JBool true; JNull; JDouble 4612811918334230528])]) 4)
     system_allocator [TBinary []])
  = Ret (Return
           (TTuple2 (TAtom "ok")
              (TList [TTuple2 (TBinary ["a"%byte]) (TLong 1);
                      TTuple2 (TBinary ["b"%byte])
                        (TList [TAtom "true"; TAtom "undefined";
                                TDouble 4612811918334230528])]))).
Proof. reflexivity. Qed.

(** [[1,2,3]]. *)
Example decode_array_scenario :
  (fst <$> decode_1 (λ _, yajl_accepts (JArray [JInteger 1; JInteger 2; JInteger 3]) 0)
             system_allocator [TBinary []])
  = Ret (Return (TTuple2 (TAtom "ok") (TList [TLong 1; TLong 2; TLong 3]))).
Proof. reflexivity. Qed.

(** Sixteen elements fit the first array; the seventeenth costs one more
    request, the reallocation. *)
Example decode_sixteen_elements :
  decode_1 (λ _, yajl_accepts (JArray (replicate 16 JNull)) 5) system_allocator
           [TBinary []]
  = Ret (Return (TTuple2 (TAtom "ok") (TList (replicate 16 (TAtom "undefined")))),
         Allocator ∅ 2 (λ _, true)).
Proof. reflexivity. Qed.

Example decode_seventeen_elements :
  decode_1 (λ _, yajl_accepts (JArray (replicate 17 JNull)) 5) system_allocator
           [TBinary []]
  = Ret (Return (TTuple2 (TAtom "ok") (TList (replicate 17 (TAtom "undefined")))),
         Allocator ∅ 3 (λ _, true)).
Proof. reflexivity. Qed.

(** [{"a":}]: yajl reports an error after the key; the open frame is
    released and the message is the result. *)
Example decode_malformed_scenario :
  decode_1 (λ _, YajlRun true [EvStartMap; EvMapKey ["a"%byte]] yajl_status_error
                   [] yajl_status_ok (Some (String.list_byte_of_string "parse error")))
           system_allocator [TBinary []]
  = Ret (Return (TTuple2 (TAtom "error")
                   (enif_make_string (String.list_byte_of_string "parse error"))),
         Allocator ∅ 3 (λ _, true)).
Proof. reflexivity. Qed.

End Scenarios.

(** * The claims *)

Lemma plentiful_system : plentiful system_allocator.
Proof. split; [done|]. intros b Hb. by apply not_elem_of_empty in Hb. Qed.

(** C1: an append into an open container.  If the flag [key] of the frame is
    set, the slot written last, which holds the key, is replaced in place by
    the pair of the key and the value, [count] stays and [key] is cleared;
    otherwise the value goes to the slot [count] and [count] grows by one.
    The other slots in use keep their terms.  The append returns when the
    frame is in good order, its array is a live block, the allocator grants
    the next request and the doubled size is an [int]. *)
Theorem add_element_pairs_or_appends st t f next :
  c st = f :: next →
  (∀ st', add_element st t = Ret st' →
     ∃ f', c st' = f' :: next ∧ key f' = false
       ∧ (if key f
          then count f' = count f
               ∧ ∃ k, load (array f) (count f - 1) = Ret k
                      ∧ load (array f') (count f - 1) = Ret (TTuple2 k t)
          else count f' = (count f + 1)%Z ∧ load (array f') (count f) = Ret t)
       ∧ (∀ j, (0 ≤ j < count f')%Z →
               j ≠ (if key f then count f - 1 else count f)%Z →
               load (array f') j = load (array f) j))
  ∧ (frame_ok f →
     (∃ a b, array f = Some a ∧ base a = Heap b ∧ b ∈ live (env st)) →
     grants (env st) (calls (env st)) = true →
     (count f < 2 ^ 30)%Z →
     is_Some (add_element st t)).
Proof.
  intros Hc. split.
  - intros st' Hadd.
    destruct (add_element_effect _ _ _ _ _ Hc Hadd)
      as (f' & Hc' & _ & _ & Hkey & Hput & Hrest & _).
    by exists f'.
  - intros Hf (a & b & Ha & Hb & Hlive) Hg Hcnt.
    destruct (add_element_returns st f next a b t) as (st' & _ & -> & _); done.
Qed.

Lemma add_element_pairs_or_appends_witness :
  c pending_state = pending_frame :: [root_frame]
  ∧ add_element pending_state (TLong 1) = Ret paired_state
  ∧ ∃ f', c paired_state = f' :: [root_frame] ∧ key f' = false
      ∧ (count f' = count pending_frame
         ∧ ∃ k, load (array pending_frame) (count pending_frame - 1) = Ret k
                ∧ load (array f') (count pending_frame - 1) = Ret (TTuple2 k (TLong 1)))
      ∧ (∀ j, (0 ≤ j < count f')%Z → j ≠ (count pending_frame - 1)%Z →
              load (array f') j = load (array pending_frame) j).
Proof.
  split; [reflexivity|]. split; [reflexivity|].
  exact (proj1 (add_element_pairs_or_appends pending_state (TLong 1)
                  pending_frame [root_frame] eq_refl) paired_state eq_refl).
Defined.

(** C2: an object with a repeated key.  A document, read without error and
    with every allocation granted, decodes to its term; the term of an
    object is a list with one 2-tuple per member, at the position of the
    member, whether or not keys repeat, and the term of an array is the list
    of the terms of its elements at their positions.  So a key that appears
    twice yields two entries, in document order, and no entry replaces
    another. *)
Theorem decode_keeps_every_member yajl bytes j now h :
  yajl bytes = yajl_accepts j now → fits j → plentiful h →
  (∃ k, decode_1 yajl h [TBinary bytes]
        = Ret (Return (TTuple2 (TAtom "ok") (term_of j)), skip k h))
  ∧ (∀ members, ∃ entries,
        term_of (JObject members) = TList entries
        ∧ length entries = length members
        ∧ (∀ i s v, members !! i = Some (s, v) →
             entries !! i = Some (TTuple2 (TBinary (stored s)) (term_of v)))
        ∧ (∀ i i' s v v', i < i' →
             members !! i = Some (s, v) → members !! i' = Some (s, v') →
             ∃ before between after,
               entries = before ++ TTuple2 (TBinary (stored s)) (term_of v)
                         :: between ++ TTuple2 (TBinary (stored s)) (term_of v')
                         :: after))
  ∧ (∀ elems, ∃ items,
        term_of (JArray elems) = TList items
        ∧ length items = length elems
        ∧ ∀ i x, elems !! i = Some x → items !! i = Some (term_of x)).
Proof.
  intros Hy Hfits Hpl. split; [by eapply decode_accepts|]. split.
  - intros members.
    set (pair := λ m : list byte * json, TTuple2 (TBinary (stored m.1)) (term_of m.2)).
    exists (pair <$> members).
    assert (∀ i s v, members !! i = Some (s, v) →
              (pair <$> members) !! i
              = Some (TTuple2 (TBinary (stored s)) (term_of v))) as Hat.
    { intros i s v Hi. by rewrite list_lookup_fmap, Hi. }
    split_and!; [done|by rewrite length_fmap|done|].
    intros i i' s v v' Hlt Hi Hi'.
    apply Hat in Hi, Hi'.
    apply list_elem_of_split_length in Hi as (before & rest & Hsplit & Hlen).
    rewrite Hsplit in Hi'. rewrite lookup_app_r in Hi' by lia.
    destruct (i' - length before) as [|n] eqn:Hn; [lia|]. simpl in Hi'.
    apply list_elem_of_split_length in Hi' as (between & after & -> & _).
    by exists before, between, after.
  - intros elems. exists (term_of <$> elems).
    split_and!; [done|by rewrite length_fmap|].
    intros i x Hi. by rewrite list_lookup_fmap, Hi.
Qed.

Lemma decode_keeps_every_member_witness :
  (λ _ : list byte, yajl_accepts twice_k 2) [] = yajl_accepts twice_k 2
  ∧ fits twice_k
  ∧ plentiful system_allocator
  ∧ ∃ k, decode_1 (λ _, yajl_accepts twice_k 2) system_allocator [TBinary []]
         = Ret (Return (TTuple2 (TAtom "ok")
                          (TList [TTuple2 (TBinary ["k"%byte]) (TLong 1);
                                  TTuple2 (TBinary ["k"%byte]) (TLong 2)])),
                skip k system_allocator).
Proof.
  split; [reflexivity|]. split; [exact I|]. split; [exact plentiful_system|].
  exact (proj1 (decode_keeps_every_member (λ _, yajl_accepts twice_k 2) [] twice_k 2
                  system_allocator eq_refl I plentiful_system)).
Defined.




Lemma run_yajl_state_ok L y st ys st' :
  state_ok L st → run_yajl y st = Ret (ys, st') → state_ok L st'.
Proof.
  intros Hst. unfold run_yajl, yajl_parse, yajl_complete_parse.
  destruct (deliver (parse_events y) _ st) as [[ys1 st1]|] eqn:H1; simpl; [|done].
  apply (deliver_state_ok _ _ _ _ _ _ Hst) in H1.
  case_bool_decide; [|by intros [= <- <-]].
  by apply deliver_state_ok.
Qed.



(** C5, as the claim states it, fails: a map is closed while its last key
    still waits for a value.  The end event returns 1, and the dummy
    container receives the list whose only element is the bare key. *)
Lemma unpaired_key_is_delivered :
  c pending_state = pending_frame :: [root_frame]
  ∧ key pending_frame = true
  ∧ handle_end_map pending_state
    = Ret (1%Z, State (Allocator ∅ 3 (λ _, true))
                  [Container Auto 1 1
                     (Some (Block Auto [Some (TList [TBinary ["k"%byte]])])) false] [])
  ∧ (fst <$> decode_1 (λ _, YajlRun true [EvStartMap; EvMapKey ["k"%byte]; EvEndMap]
                               yajl_status_ok [] yajl_status_ok None)
               system_allocator [TBinary []])
    = Ret (Return (TTuple2 (TAtom "ok") (TList [TBinary ["k"%byte]]))).
Proof. split_and!; reflexivity. Qed.

(** C5, amended: an end event does not look at the flag [key] of the frame it
    closes.  With the flag set or clear the call is the same; when it returns
    it returns 1; and what it adds to the frame below is the list of the
    terms the closed frame holds, a key not yet paired among them. *)
Theorem handle_end_ignores_key st f next :
  c st = f :: next →
  (∀ b, handle_end (State (env st)
                      (Container (self f) (count f) (arraysz f) (array f) b :: next)
                      (errmsg st))
        = handle_end st)
  ∧ (∀ r st', handle_end st = Ret (r, st') → r = 1%Z)
  ∧ (∀ ts, holds f ts →
       handle_end st
       = (st2 ← add_element (State (env st) next (errmsg st)) (TList ts);
          h ← (match array f with
               | Some a => enif_free (env st2) (base a)
               | None => Ret (env st2)
               end);
          h' ← enif_free h (self f);
          Ret (1%Z, with_env st2 h'))).
Proof.
  intros Hc. split_and!.
  - intros b. unfold handle_end. by rewrite Hc.
  - intros r st'. unfold handle_end. rewrite Hc.
    destruct (enif_make_list_from_array _ _) as [l|]; simpl; [|done].
    destruct (add_element _ _) as [st2|]; simpl; [|done].
    destruct (match array f with Some _ => _ | None => _ end) as [h1|]; simpl; [|done].
    destruct (enif_free h1 _) as [h2|]; simpl; [|done].
    by intros [= <- _].
  - intros ts Hts. unfold handle_end. by rewrite Hc, (holds_make_list _ _ Hts).
Qed.

Lemma handle_end_ignores_key_witness :
  c pending_state = pending_frame :: [root_frame]
  ∧ holds pending_frame [TBinary ["k"%byte]]
  ∧ handle_end (State (env pending_state)
                  (Container (self pending_frame) (count pending_frame)
                     (arraysz pending_frame) (array pending_frame) false
                   :: [root_frame])
                  (errmsg pending_state))
    = handle_end pending_state
  ∧ handle_end pending_state
    = (st2 ← add_element (State (env pending_state) [root_frame] (errmsg pending_state))
                         (TList [TBinary ["k"%byte]]);
       h ← enif_free (env st2) (Heap 1);
       h' ← enif_free h (Heap 0);
       Ret (1%Z, with_env st2 h')).
Proof.
  assert (holds pending_frame [TBinary ["k"%byte]]) as Hholds.
  { split; [reflexivity|]. intros [|i] t; [|done]. by intros [= <-]. }
  destruct (handle_end_ignores_key pending_state pending_frame [root_frame] eq_refl)
    as (Hflag & _ & Hlist).
  split; [reflexivity|]. split; [exact Hholds|]. split; [exact (Hflag false)|].
  exact (Hlist _ Hholds).
Defined.

(** No document is built as a 2-tuple: tuples are made for members only. *)
Lemma term_of_not_tuple j a b : term_of j ≠ TTuple2 a b.
Proof. destruct j as [|[|]| | | | |]; done. Qed.

(** C7, as the claim states it, fails: the empty array and the empty object
    decode to the same value, the empty list. *)
Lemma empty_array_and_empty_object_alike :
  (fst <$> decode_1 (λ _, yajl_accepts (JArray []) 2) system_allocator [TBinary []])
  = Ret (Return (TTuple2 (TAtom "ok") (TList [])))
  ∧ (fst <$> decode_1 (λ _, yajl_accepts (JObject []) 2) system_allocator [TBinary []])
    = Ret (Return (TTuple2 (TAtom "ok") (TList []))).
Proof. split; reflexivity. Qed.

(** C7, amended: a closed array and a closed object are both delivered as a
    list.  The callbacks for the two kinds of container are the same
    functions, so the kind is not recorded; a document decodes to its term,
    in which an array is the list of the terms of its elements and an object
    the list of the 2-tuples of key and value, both in document order.  An
    empty array and an empty object give the same term; no other array has
    the term of an object, since no document has a 2-tuple as its term. *)
Theorem arrays_and_objects_are_lists yajl bytes j now h :
  yajl bytes = yajl_accepts j now → fits j → plentiful h →
  (∃ k, decode_1 yajl h [TBinary bytes]
        = Ret (Return (TTuple2 (TAtom "ok") (term_of j)), skip k h))
  ∧ (∀ elems, term_of (JArray elems) = TList (term_of <$> elems))
  ∧ (∀ members,
       term_of (JObject members)
       = TList ((λ m, TTuple2 (TBinary (stored (fst m))) (term_of (snd m))) <$> members))
  ∧ term_of (JArray []) = term_of (JObject [])
  ∧ (∀ elems members,
       term_of (JArray elems) = term_of (JObject members) →
       elems = [] ∧ members = [])
  ∧ (∀ st, handle_start_array st = handle_start_map st
           ∧ handle_end_array st = handle_end_map st).
Proof.
  intros Hy Hfits Hpl. split; [by eapply decode_accepts|].
  split_and!; try done.
  intros [|x elems] [|m members]; simpl; try done.
  intros [= Hx _]. by apply term_of_not_tuple in Hx.
Qed.

Lemma arrays_and_objects_are_lists_witness :
  (λ _ : list byte, yajl_accepts (JArray [JObject []; JArray []]) 1) []
  = yajl_accepts (JArray [JObject []; JArray []]) 1
  ∧ fits (JArray [JObject []; JArray []])
  ∧ plentiful system_allocator
  ∧ ∃ k, decode_1 (λ _, yajl_accepts (JArray [JObject []; JArray []]) 1)
                  system_allocator [TBinary []]
         = Ret (Return (TTuple2 (TAtom "ok") (TList [TList []; TList []])),
                skip k system_allocator).
Proof.
  split; [reflexivity|]. split; [exact I|]. split; [exact plentiful_system|].
  exact (proj1 (arrays_and_objects_are_lists
                  (λ _, yajl_accepts (JArray [JObject []; JArray []]) 1) []
                  (JArray [JObject []; JArray []]) 1
                  system_allocator eq_refl I plentiful_system)).
Defined.

(** C8, as the claim states it, fails: a payload with a zero byte in its
    middle and only zero bytes after it is stored as it is, and so is a
    payload whose last byte is its only zero byte. *)
Lemma zero_bytes_are_copied_exactly :
  x00 ∈ ["a"%byte; x00; x00]
  ∧ stored ["a"%byte; x00; x00] = ["a"%byte; x00; x00]
  ∧ stored ["a"%byte; x00] = ["a"%byte; x00]
  ∧ (handle_string (initial_state system_allocator) ["a"%byte; x00; x00]
       ≫= λ r, top_level_term r.2)
    = Ret (TBinary ["a"%byte; x00; x00])
  ∧ (handle_map_key opened_state ["a"%byte; x00; x00]
       ≫= λ r, f ← head (c r.2); load (array f) 0)
    = Ret (TBinary ["a"%byte; x00; x00]).
Proof.
  split; [set_solver|]. split_and!; reflexivity.
Qed.

(** C8, amended: the string and map-key callbacks store [stored s] for the
    payload [s].  It has the length of the payload; it is the payload when
    that has no zero byte; and when the payload has one, it is the payload up
    to and including the first zero byte followed by zero bytes only, so it
    differs from the payload exactly when a byte after the first zero byte is
    not zero. *)
Theorem stored_up_to_first_zero s :
  length (stored s) = length s
  ∧ (x00 ∉ s → stored s = s)
  ∧ (∀ pre post, x00 ∉ pre → s = pre ++ x00 :: post →
       stored s = pre ++ x00 :: replicate (length post) x00
       ∧ (stored s = s ↔ Forall (λ b, b = x00) post))
  ∧ (∀ st, grants (env st) (calls (env st)) = true →
       handle_string st s
       = (st' ← add_element (with_env st (request (env st))) (TBinary (stored s));
          Ret (1%Z, st'))
       ∧ handle_map_key st s
         = (st' ← add_element (with_env st (request (env st))) (TBinary (stored s));
            match c st' with
            | [] => Fault
            | f :: next =>
                Ret (1%Z, State (env st')
                            (Container (self f) (count f) (arraysz f) (array f) true :: next)
                            (errmsg st'))
            end)).
Proof.
  split_and!.
  - apply length_strncpy.
  - apply stored_exact.
  - intros pre post Hpre ->. rewrite stored_zero_filled by done. split; [done|].
    split.
    + intros Heq. apply app_inv_head in Heq. injection Heq as Heq.
      rewrite <- Heq. apply Forall_replicate. done.
    + intros Hpost. do 2 f_equal. apply replicate_as_Forall. split; [done|].
      eapply Forall_impl; [done|]. by intros b ->.
  - intros st Hg. unfold handle_string, handle_map_key, enif_alloc_binary.
    by rewrite Hg.
Qed.

Lemma stored_up_to_first_zero_witness :
  (x00 ∉ ["a"%byte])
  ∧ ["a"%byte; x00; "b"%byte] = ["a"%byte] ++ x00 :: ["b"%byte]
  ∧ stored ["a"%byte; x00; "b"%byte] = ["a"%byte; x00; x00]
  ∧ (stored ["a"%byte; x00; "b"%byte] = ["a"%byte; x00; "b"%byte]
     ↔ Forall (λ b, b = x00) ["b"%byte]).
Proof.
  assert (x00 ∉ ["a"%byte]) as Hpre.
  { intros [Hx|Hx]%elem_of_cons; [discriminate|by apply elem_of_nil in Hx]. }
  split; [exact Hpre|]. split; [reflexivity|].
  exact (proj1 (proj2 (proj2 (stored_up_to_first_zero ["a"%byte; x00; "b"%byte])))
           ["a"%byte] ["b"%byte] Hpre eq_refl).
Defined.

(** C6 at the failing inputs: with an allocator that refuses the request,
    the string callback reports the failure by returning 0, while the
    map-key callback and the start callbacks go on with the null result,
    and so does an append that has to grow the array. *)
Lemma unchecked_allocations :
  handle_string (initial_state exhausted_allocator) ["k"%byte]
  = Ret (0%Z, initial_state (request exhausted_allocator))
  ∧ handle_map_key (initial_state exhausted_allocator) ["k"%byte] = Fault
  ∧ handle_start_map (initial_state exhausted_allocator) = Fault
  ∧ handle_start_array (initial_state exhausted_allocator) = Fault
  ∧ add_element
      (State (Allocator {[0; 1]} 2 (λ _, false)) [full_frame; root_frame] [])
      (TLong 1) = Fault
  ∧ decode_1 (λ _, yajl_accepts twice_k 0) exhausted_allocator [TBinary []] = Fault.
Proof. split_and!; reflexivity. Qed.

(** C9: a call of [decode_1] whose arguments are not one binary returns
    [badarg].  The result does not depend on what yajl would do, and the
    allocator is as it was: no request was made and nothing was freed. *)
Theorem decode_1_badarg yajl h argv :
  (∀ bytes, argv ≠ [TBinary bytes]) →
  decode_1 yajl h argv = Ret (Badarg, h).
Proof.
  intros Hargv. unfold decode_1.
  destruct argv as [|arg [|arg' argv]]; [done| |done].
  destruct arg; try done. by destruct (Hargv data).
Qed.

Lemma decode_1_badarg_witness :
  (∀ bytes, [TAtom "x"; TBinary []] ≠ [TBinary bytes])
  ∧ (∀ bytes, [TLong 1] ≠ [TBinary bytes])
  ∧ decode_1 (λ _, YajlRun false [] yajl_status_ok [] yajl_status_ok None)
             exhausted_allocator [TAtom "x"; TBinary []]
    = Ret (Badarg, exhausted_allocator)
  ∧ decode_1 (λ _, YajlRun false [] yajl_status_ok [] yajl_status_ok None)
             exhausted_allocator [TLong 1]
    = Ret (Badarg, exhausted_allocator).
Proof.
  split; [discriminate|]. split; [discriminate|]. split.
  - exact (decode_1_badarg _ exhausted_allocator [TAtom "x"; TBinary []]
             ltac:(discriminate)).
  - exact (decode_1_badarg _ exhausted_allocator [TLong 1] ltac:(discriminate)).
Defined.



(** * Further properties of the callbacks and of [decode_1] *)

Section Requests.






End Requests.

Section DecodeOutcomes.


(** The ways in which [decode_1] returns. *)
Lemma decode_1_inv yajl h argv res h' :
  decode_1 yajl h argv = Ret (res, h') →
  (res = Badarg ∧ h' = h ∧ ∀ bytes, argv ≠ [TBinary bytes])
  ∨ ∃ bytes ys st,
      argv = [TBinary bytes]
      ∧ handle_ok (yajl bytes) = true
      ∧ run_yajl (yajl bytes) (initial_state h) = Ret (ys, st)
      ∧ ((ys ≠ yajl_status_ok
          ∧ cleanup_containers (env st) (c st) = Ret h'
          ∧ ∃ m, res = Return (TTuple2 (TAtom "error") m))
         ∨ (ys = yajl_status_ok ∧ h' = env st
            ∧ ∃ t, top_level_term st = Ret t
                   ∧ res = Return (TTuple2 (TAtom "ok") t))).
Proof.
  unfold decode_1. destruct argv as [|arg [|arg' argv]].
  - intros [= <- <-]. by left.
  - destruct arg; cbn [enif_is_binary enif_inspect_binary negb];
      try (intros [= <- <-]; by left).
    change (State h _ []) with (initial_state h). unfold parse_json.
    destruct (handle_ok (yajl data)) eqn:Hok; cbn [negb]; [|done].
    destruct (run_yajl _ _) as [[ys st]|] eqn:Hrun; cbn [mbind option_bind]; [|done].
    intros Hres. right. exists data, ys, st. split_and!; [done..|].
    revert Hres. case_bool_decide as Hys.
    + unfold report_error.
      destruct (cleanup_containers _ _) as [h1|] eqn:Hclean;
        destruct (error_text (yajl data)); cbn [mbind option_bind]; try done;
        intros [= <- <-]; left; (split_and!; [done..|]); by eexists.
    + cbn [mbind option_bind].
      destruct (top_level_term st) as [t|] eqn:Ht; cbn [mbind option_bind]; [|done].
      intros [= <- <-]. right. split_and!; [|done|by exists t].
      by destruct (decide (ys = yajl_status_ok)).
  - intros [= <- <-]. by left.
Qed.


End DecodeOutcomes.

(** ** What a caller of [decode_1] can rely on *)

Section Caller.



(** X2: the blocks of the caller.  Whatever yajl delivers and whatever the
    allocator grants, a call of [decode_1] that returns has freed no block
    that was in use before the call; when the result is [badarg] or an error
    pair, the blocks in use are exactly those in use before. *)
Theorem decode_1_keeps_callers_blocks yajl h argv res h' :
  (∀ b, b ∈ live h → b < calls h) →
  decode_1 yajl h argv = Ret (res, h') →
  live h ⊆ live h'
  ∧ (res = Badarg ∨ (∃ m, res = Return (TTuple2 (TAtom "error") m)) →
     live h' = live h).
Proof.
  intros Hh [(-> & -> & _)|(bytes & ys & st & -> & _ & Hrun & Hend)]%decode_1_inv.
  { done. }
  pose proof (run_yajl_state_ok _ _ _ _ _ (initial_state_ok h Hh) Hrun) as Hst.
  destruct Hend as [(_ & Hclean & _)|(_ & -> & t & _ & ->)].
  - destruct (cleanup_containers_ok _ _ Hst) as (h1 & Hclean' & Hlive & _).
    rewrite Hclean in Hclean'. injection Hclean' as <-. by rewrite Hlive.
  - split.
    + rewrite (blocks_live _ _ Hst). set_solver.
    + intros [?|[m ?]]; done.
Qed.

Lemma decode_1_keeps_callers_blocks_witness :
  (∀ b, b ∈ live busy_allocator → b < calls busy_allocator)
  ∧ decode_1 (λ _, yajl_accepts twice_k 2) busy_allocator [TBinary []]
    = Ret (Return (TTuple2 (TAtom "ok")
                     (TList [TTuple2 (TBinary ["k"%byte]) (TLong 1);
                             TTuple2 (TBinary ["k"%byte]) (TLong 2)])),
           Allocator {[7]} 13 (λ _, true))
  ∧ live busy_allocator ⊆ live (Allocator {[7]} 13 (λ _, true)).
Proof.
  assert (∀ b, b ∈ live busy_allocator → b < calls busy_allocator) as Hh.
  { unfold busy_allocator. simpl. intros b Hb%elem_of_singleton. lia. }
  assert (decode_1 (λ _, yajl_accepts twice_k 2) busy_allocator [TBinary []]
          = Ret (Return (TTuple2 (TAtom "ok")
                           (TList [TTuple2 (TBinary ["k"%byte]) (TLong 1);
                                   TTuple2 (TBinary ["k"%byte]) (TLong 2)])),
                 Allocator {[7]} 13 (λ _, true))) as Hrun.
  { vm_compute. reflexivity. }
  split; [exact Hh|]. split; [exact Hrun|].
  apply (decode_1_keeps_callers_blocks _ _ _ _ _ Hh Hrun).
Defined.



End Caller.

(** ** What one callback does to the container stack *)

Section Callbacks.

Implicit Types (st : state_t) (t : term) (f : container_t) (e : event).

(** The frames after a returning [add_element]. *)
Lemma add_element_frames st t st' :
  add_element st t = Ret st' →
  (c st = [] ∧ st' = st)
  ∨ ∃ f next f',
      c st = f :: next ∧ c st' = f' :: next ∧ key f' = false ∧ self f' = self f
      ∧ (count f ≤ count f' ≤ count f + 1)%Z
      ∧ (if bool_decide (arraysz f ≤ count f)%Z
         then arraysz f' = (arraysz f * 2)%Z
         else arraysz f' = arraysz f).
Proof.
  intros Hadd. destruct (c st) as [|f next] eqn:Hc.
  { left. split; [done|]. rewrite add_element_nil in Hadd by done. congruence. }
  right.
  destruct (add_element_effect _ _ _ _ _ Hc Hadd)
    as (f' & Hc' & _ & Hself & Hkey & Hcnt & _ & Hsz).
  exists f, next, f'. split_and!; try done; destruct (key f); lia.
Qed.

(** The callbacks, read off as steps of [add_element]. *)
Lemma callbacks_inv e st r st' :
  callbacks e st = Ret (r, st') →
  match e with
  | EvStartMap | EvStartArray =>
      r = 1%Z ∧ ∃ f, c st' = f :: c st ∧ count f = 0%Z ∧ arraysz f = 16%Z
                     ∧ key f = false
  | EvEndMap | EvEndArray =>
      r = 1%Z ∧ ∃ f next l st1,
        c st = f :: next
        ∧ add_element (State (env st) next (errmsg st)) l = Ret st1
        ∧ c st' = c st1
  | EvMapKey s =>
      r = 1%Z ∧ ∃ st1 f next,
        add_element (with_env st (request (env st))) (TBinary (stored s)) = Ret st1
        ∧ c st1 = f :: next
        ∧ c st' = Container (self f) (count f) (arraysz f) (array f) true :: next
  | EvString s =>
      (r = 0%Z ∧ grants (env st) (calls (env st)) = false
       ∧ st' = with_env st (request (env st)))
      ∨ (r = 1%Z ∧ grants (env st) (calls (env st)) = true
         ∧ add_element (with_env st (request (env st))) (TBinary (stored s)) = Ret st')
  | _ => r = 1%Z ∧ ∃ t, add_element st t = Ret st'
  end.
Proof.
  assert (∀ st, handle_start st = Ret (r, st') →
            r = 1%Z ∧ ∃ f, c st' = f :: c st ∧ count f = 0%Z ∧ arraysz f = 16%Z
                           ∧ key f = false) as Hstart.
  { intros st0. unfold handle_start, enif_alloc.
    destruct (grants _ _); [|done]. simpl.
    destruct (grants _ _); simpl; intros [= <- <-]; (split; [done|]);
      eexists; simpl; done. }
  assert (∀ st, handle_end st = Ret (r, st') →
            r = 1%Z ∧ ∃ f next l st1,
              c st = f :: next
              ∧ add_element (State (env st) next (errmsg st)) l = Ret st1
              ∧ c st' = c st1) as Hend.
  { intros st0. unfold handle_end. destruct (c st0) as [|f next]; [done|].
    destruct (enif_make_list_from_array _ _) as [l|]; cbn [mbind option_bind]; [|done].
    destruct (add_element _ l) as [st1|] eqn:Hadd; cbn [mbind option_bind]; [|done].
    destruct (match array f with Some a => _ | None => _ end) as [h1|];
      cbn [mbind option_bind]; [|done].
    destruct (enif_free h1 _) as [h2|]; cbn [mbind option_bind]; [|done].
    intros [= <- <-]. split; [done|]. by exists f, next, l, st1. }
  destruct e; simpl; try (by apply Hstart); try (by apply Hend).
  - unfold handle_null.
    destruct (add_element _ _) as [st1|] eqn:Hadd; simpl; [|done].
    intros [= <- <-]. split; [done|]. by eexists.
  - unfold handle_boolean.
    destruct boolVal; (destruct (add_element _ _) as [st1|] eqn:Hadd; simpl; [|done]);
      intros [= <- <-]; (split; [done|]); by eexists.
  - unfold handle_integer.
    destruct (add_element _ _) as [st1|] eqn:Hadd; simpl; [|done].
    intros [= <- <-]. split; [done|]. by eexists.
  - unfold handle_double.
    destruct (add_element _ _) as [st1|] eqn:Hadd; simpl; [|done].
    intros [= <- <-]. split; [done|]. by eexists.
  - unfold handle_string, enif_alloc_binary.
    destruct (grants (env st) (calls (env st))); cbn [negb].
    + destruct (add_element _ _) as [st1|] eqn:Hadd; simpl; [|done].
      intros [= <- <-]. right. done.
    + intros [= <- <-]. left. done.
  - unfold handle_map_key, enif_alloc_binary.
    destruct (grants (env st) (calls (env st))); cbn [negb]; [|done].
    destruct (add_element _ _) as [st1|] eqn:Hadd; cbn [mbind option_bind]; [|done].
    destruct (c st1) as [|f next] eqn:Hc1; [done|].
    intros [= <- <-]. split; [done|]. by exists st1, f, next.
Qed.




(** X4: one callback and the stack.  A callback that returns changes the
    depth of the container stack by one for a start event, by minus one for
    an end event and not at all otherwise, and leaves every frame below the
    innermost one as it was; an end event may change, besides, the frame
    that becomes the innermost one. *)
Theorem callbacks_touch_innermost_frame e st r st' :
  callbacks e st = Ret (r, st') →
  Z.of_nat (length (c st')) = (Z.of_nat (length (c st)) + depth_change e)%Z
  ∧ drop 1 (c st') = drop (Z.to_nat (1 - depth_change e)) (c st).
Proof.
  assert (∀ st t st', add_element st t = Ret st' →
            length (c st') = length (c st) ∧ drop 1 (c st') = drop 1 (c st)) as Hadd.
  { intros st0 t st1 [[Hc ->]|(f & next & f' & -> & -> & _)]%add_element_frames; done. }
  intros He. apply callbacks_inv in He.
  destruct e; cbn [depth_change];
    change (Z.to_nat (1 - 0)) with 1; change (Z.to_nat (1 - 1)) with 0;
    change (Z.to_nat (1 - -1)) with 2;
    try (destruct He as [_ [t [Hl Hd]%Hadd]]; rewrite Hl, Hd; split; [lia|done]);
    try (destruct He as [_ (f & -> & _)]; split; [simpl; lia|done]);
    try (destruct He as [_ (f & next & l & st1 & -> & [Hl Hd]%Hadd & ->)];
         rewrite Hl, Hd; split; [simpl; lia|done]).
  - destruct He as [(_ & _ & ->)|(_ & _ & [Hl Hd]%Hadd)].
    + split; [simpl; lia|done].
    + simpl in Hl, Hd. rewrite Hl, Hd. split; [lia|done].
  - destruct He as (_ & st1 & f & next & [Hl Hd]%Hadd & Hc1 & ->).
    rewrite Hc1 in Hl, Hd. simpl in Hl, Hd. rewrite <- Hd.
    split; [simpl; lia|done].
Qed.

Lemma callbacks_touch_innermost_frame_witness :
  callbacks EvStartMap (initial_state system_allocator) = Ret (1%Z, opened_state)
  ∧ Z.of_nat (length (c opened_state))
    = (Z.of_nat (length (c (initial_state system_allocator))) + depth_change EvStartMap)%Z
  ∧ drop 1 (c opened_state)
    = drop (Z.to_nat (1 - depth_change EvStartMap)) (c (initial_state system_allocator)).
Proof.
  split; [reflexivity|].
  exact (callbacks_touch_innermost_frame EvStartMap (initial_state system_allocator)
           1%Z opened_state eq_refl).
Defined.



(** X6: what cancels a parse.  A callback returns 0 or 1.  It returns 0,
    which makes yajl stop, only for a string event whose buffer the
    allocator refuses, and then the state is as before but for the request
    made. *)
Theorem callbacks_cancel_on_refused_string e st r st' :
  callbacks e st = Ret (r, st') →
  (r = 0 ∨ r = 1)%Z
  ∧ (r = 0%Z ↔ (∃ s, e = EvString s) ∧ grants (env st) (calls (env st)) = false)
  ∧ (r = 0%Z → st' = with_env st (request (env st))).
Proof.
  intros He. pose proof (callbacks_inv _ _ _ _ He) as Hinv.
  assert ((∀ s, e ≠ EvString s) → r = 1%Z →
            (r = 0 ∨ r = 1)%Z
            ∧ (r = 0%Z ↔ (∃ s, e = EvString s) ∧ grants (env st) (calls (env st)) = false)
            ∧ (r = 0%Z → st' = with_env st (request (env st)))) as Hone.
  { intros Hne ->. split_and!; [by right| |done].
    split; [done|]. intros [[s ->] _]. by destruct (Hne s). }
  destruct e; try (apply Hone; [done|apply Hinv]).
  destruct Hinv as [(-> & Hg & ->)|(-> & Hg & _)].
  - split_and!; [by left| |done]. split; [|done]. intros _. split; [by eexists|done].
  - split_and!; [by right| |done]. split; [done|]. rewrite Hg. by intros [_ ?].
Qed.

Lemma callbacks_cancel_on_refused_string_witness :
  callbacks (EvString ["a"%byte])
            (with_env cancelled_state (Allocator {[0; 1]} 2 (λ n, bool_decide (n < 2))))
  = Ret (0%Z, cancelled_state)
  ∧ grants (Allocator {[0; 1]} 2 (λ n, bool_decide (n < 2))) 2 = false
  ∧ cancelled_state
    = with_env (with_env cancelled_state
                         (Allocator {[0; 1]} 2 (λ n, bool_decide (n < 2))))
               (request (Allocator {[0; 1]} 2 (λ n, bool_decide (n < 2)))).
Proof.
  assert (callbacks (EvString ["a"%byte])
            (with_env cancelled_state
                      (Allocator {[0; 1]} 2 (λ n, bool_decide (n < 2))))
          = Ret (0%Z, cancelled_state)) as Hrun by reflexivity.
  split; [exact Hrun|].
  destruct (callbacks_cancel_on_refused_string _ _ _ _ Hrun) as (_ & Hiff & Hst).
  split; [exact (proj2 (proj1 Hiff eq_refl))|exact (Hst eq_refl)].
Defined.

(** X7: how long a key is pending.  After a callback that returned 1, the
    flag [key] of the innermost frame is set exactly when the event was a
    map key: whatever event follows a key, a value, another key or the end
    of the container, takes the key as dealt with. *)
Theorem key_is_pending_for_one_event e st st' f next :
  callbacks e st = Ret (1%Z, st') →
  c st' = f :: next →
  key f = is_map_key e.
Proof.
  assert (∀ st t st' f next,
            add_element st t = Ret st' → c st' = f :: next → c st ≠ [] →
            key f = false) as Hadd.
  { intros st0 t st1 f0 next0
      [[Hc ->]|(f1 & next1 & f' & _ & -> & Hk & _)]%add_element_frames; [done|].
    by intros [= <- <-]. }
  assert (∀ st t st' f next,
            add_element st t = Ret st' → c st' = f :: next → key f = false) as Hadd'.
  { intros st0 t st1 f0 next0 H1 H2. apply (Hadd _ _ _ _ _ H1 H2).
    intros Hnil. rewrite (add_element_nil _ _ Hnil) in H1. congruence. }
  intros He Hc'. apply callbacks_inv in He.
  destruct e; simpl;
    try (destruct He as [_ [t Ht]]; by apply (Hadd' _ _ _ _ _ Ht Hc'));
    try (destruct He as [_ (f0 & Hc0 & _ & _ & Hk)]; rewrite Hc' in Hc0;
         by injection Hc0 as <- _);
    try (destruct He as [_ (f0 & next0 & l & st1 & _ & Ht & Hc1)]; rewrite Hc1 in Hc';
         by apply (Hadd' _ _ _ _ _ Ht Hc')).
  - destruct He as [(? & _)|(_ & _ & Ht)]; [done|]. by apply (Hadd' _ _ _ _ _ Ht Hc').
  - destruct He as (_ & st1 & f0 & next0 & _ & _ & Hc1). rewrite Hc' in Hc1.
    by injection Hc1 as -> _.
Qed.

Lemma key_is_pending_for_one_event_witness :
  callbacks (EvInteger 1) pending_state = Ret (1%Z, paired_state)
  ∧ c paired_state = [Container (Heap 0) 1 16
       (Some (Block (Heap 1)
          (Some (TTuple2 (TBinary ["k"%byte]) (TLong 1)) :: replicate 15 None)))
       false; root_frame]
  ∧ key (Container (Heap 0) 1 16
       (Some (Block (Heap 1)
          (Some (TTuple2 (TBinary ["k"%byte]) (TLong 1)) :: replicate 15 None)))
       false) = is_map_key (EvInteger 1).
Proof.
  split; [reflexivity|]. split; [reflexivity|].
  exact (key_is_pending_for_one_event (EvInteger 1) pending_state paired_state
           _ [root_frame] eq_refl eq_refl).
Defined.

End Callbacks.

(** ** The whole parse *)

Section Parse.

Implicit Types (st : state_t) (t : term) (f : container_t) (e : event).

Lemma c_str_no_zero s : x00 ∉ c_str s.
Proof.
  induction s as [|b s IH]; simpl; [apply not_elem_of_nil|].
  case_bool_decide; [apply not_elem_of_nil|].
  apply not_elem_of_cons. done.
Qed.

Lemma c_str_id s : x00 ∉ s → c_str s = s.
Proof.
  induction s as [|b s IH]; simpl; [done|].
  intros [Hb Hs]%not_elem_of_cons.
  rewrite bool_decide_eq_false_2 by done. by rewrite IH.
Qed.

(** The message [parse_json] returns is a C string that fits [errmsg]. *)
Lemma parse_json_message y st msg st' :
  parse_json y st = Ret (Some msg, st') →
  msg = match error_text y with
        | Some m => take (ERR_BUF_SIZE - 1) (c_str m)
        | None => unknown_yajl_error
        end
  ∧ length msg < ERR_BUF_SIZE ∧ (x00 ∉ msg).
Proof.
  unfold parse_json. destruct (handle_ok y); cbn [negb]; [|done].
  destruct (run_yajl y st) as [[ys st1]|]; cbn [mbind option_bind]; [|done].
  case_bool_decide; [|done]. unfold report_error.
  destruct (error_text y) as [m|].
  - destruct (cleanup_containers _ _) as [h1|]; cbn [mbind option_bind]; [|done].
    intros Heq.
    assert (msg = c_str (strncpy m (ERR_BUF_SIZE - 1) ++ [x00])) as -> by congruence.
    rewrite c_str_strncpy. split; [done|]. split.
    + rewrite length_take. unfold ERR_BUF_SIZE. lia.
    + intros Hin%subseteq_take. by apply (c_str_no_zero m).
  - destruct (cleanup_containers _ _) as [h1|]; cbn [mbind option_bind]; [|done].
    intros Heq. assert (msg = unknown_yajl_error) as -> by congruence.
    split; [done|]. split.
    + vm_compute. lia.
    + unfold unknown_yajl_error. simpl. set_solver.
Qed.

(** The second component of an error pair. *)
Lemma decode_1_error_message yajl h bytes m h' :
  decode_1 yajl h [TBinary bytes] = Ret (Return (TTuple2 (TAtom "error") m), h') →
  ∃ msg,
    m = TList ((λ b, TLong (Z.of_N (Byte.to_N b))) <$> msg)
    ∧ msg = match error_text (yajl bytes) with
            | Some text => take (ERR_BUF_SIZE - 1) (c_str text)
            | None => unknown_yajl_error
            end
    ∧ length msg < ERR_BUF_SIZE ∧ (x00 ∉ msg).
Proof.
  unfold decode_1. cbn [enif_is_binary enif_inspect_binary negb].
  destruct (parse_json _ _) as [[[msg|] st1]|] eqn:Hp; cbn [mbind option_bind]; [| |done].
  - apply parse_json_message in Hp as (Hmsg & Hlen & Hz).
    intros [= <- _]. exists msg. unfold enif_make_string.
    by rewrite (c_str_id _ Hz).
  - destruct (top_level_term st1); cbn [mbind option_bind]; [|done]. intros [= ?].
Qed.

(** X8: the three results.  A call of [decode_1] that returns gives
    [badarg] only when the arguments are not one binary.  Otherwise yajl has
    run, and the result follows its status: for [yajl_status_ok] the pair of
    [ok] and the term in the one slot of the dummy container, with the
    allocator as the callbacks left it; for any other status the pair of
    [error] and the list of the character codes of the message, which has
    fewer bytes than [errmsg] has room for and no zero byte. *)
Theorem decode_1_results yajl h argv res h' :
  decode_1 yajl h argv = Ret (res, h') →
  match res with
  | Badarg => ∀ bytes, argv ≠ [TBinary bytes]
  | Return r =>
      ∃ bytes ys st,
        argv = [TBinary bytes]
        ∧ run_yajl (yajl bytes) (initial_state h) = Ret (ys, st)
        ∧ if bool_decide (ys = yajl_status_ok)
          then ∃ t, r = TTuple2 (TAtom "ok") t ∧ top_level_term st = Ret t
                    ∧ h' = env st
          else ∃ msg, r = TTuple2 (TAtom "error")
                            (TList ((λ b, TLong (Z.of_N (Byte.to_N b))) <$> msg))
                      ∧ msg = match error_text (yajl bytes) with
                              | Some text => take (ERR_BUF_SIZE - 1) (c_str text)
                              | None => unknown_yajl_error
                              end
                      ∧ length msg < ERR_BUF_SIZE ∧ (x00 ∉ msg)
  end.
Proof.
  intros Hrun.
  destruct (decode_1_inv _ _ _ _ _ Hrun)
    as [(-> & _ & Hargv)|(bytes & ys & st & -> & _ & Hr & Hend)]; [done|].
  destruct Hend as [(Hne & _ & m & ->)|(-> & -> & t & Ht & ->)].
  - exists bytes, ys, st. split; [done|]. split; [done|].
    rewrite bool_decide_eq_false_2 by done.
    destruct (decode_1_error_message _ _ _ _ _ Hrun) as (msg & -> & Hmsg).
    by exists msg.
  - exists bytes, yajl_status_ok, st. split; [done|]. split; [done|].
    rewrite bool_decide_eq_true_2 by done. by exists t.
Qed.

Lemma decode_1_results_witness :
  ∃ h' ys st msg,
    decode_1 (λ _, cut_off_run) system_allocator [TBinary []]
    = Ret (Return (TTuple2 (TAtom "error")
                     (TList ((λ b, TLong (Z.of_N (Byte.to_N b))) <$> msg))), h')
    ∧ run_yajl cut_off_run (initial_state system_allocator) = Ret (ys, st)
    ∧ ys = yajl_status_error
    ∧ msg = String.list_byte_of_string "parse error: premature EOF"
    ∧ length msg < ERR_BUF_SIZE ∧ (x00 ∉ msg).
Proof.
  assert (∃ h', decode_1 (λ _, cut_off_run) system_allocator [TBinary []]
                = Ret (Return (TTuple2 (TAtom "error")
                         (TList ((λ b, TLong (Z.of_N (Byte.to_N b)))
                                   <$> String.list_byte_of_string
                                         "parse error: premature EOF"))), h'))
    as (h' & Hrun).
  { eexists. vm_compute. reflexivity. }
  destruct (decode_1_results _ _ _ _ _ Hrun)
    as (bytes & ys & st & _ & Hr & Hshape).
  assert (ys = yajl_status_error) as Hys.
  { assert (fst <$> run_yajl cut_off_run (initial_state system_allocator)
            = Ret yajl_status_error) as Hfst by (vm_compute; reflexivity).
    simpl in Hr. rewrite Hr in Hfst. by injection Hfst. }
  rewrite Hys in Hshape. simpl in Hshape.
  destruct Hshape as (msg & _ & Hmsg & Hlen & Hz).
  exists h', ys, st, msg. split.
  { rewrite Hmsg. exact Hrun. }
  split; [exact Hr|]. split; [exact Hys|]. split; [exact Hmsg|].
  split; [exact Hlen|exact Hz].
Defined.





(** X10: a second term at the top level.  The dummy container of [decode_1]
    has one slot, in automatic storage.  Once it holds the term of the
    document, every further event that is not a start event and, for a
    string, gets its buffer, is undefined behaviour: the term array would be
    resized, or freed, though it is no block of the allocator.  The code
    relies on yajl to end the parse after the first document. *)
Theorem second_top_level_term_faults e st f :
  c st = [f] → is_root f → (arraysz f ≤ count f)%Z →
  depth_change e ≠ 1%Z →
  (∀ s, e = EvString s → grants (env st) (calls (env st)) = true) →
  callbacks e st = Fault.
Proof.
  intros Hc (Hself & Hsz & a & Ha & Hb) Hfull Hstart Hgrant.
  assert (∀ h t, add_element (with_env st h) t = Fault) as Hadd.
  { intros h t. rewrite (add_element_cons _ _ f []) by done.
    unfold grown. rewrite bool_decide_eq_true_2 by done.
    rewrite Hsz. cbn [int INT_MIN INT_MAX Z.mul Pos.mul bool_decide decide_rel].
    change (int (1 * 2)) with (Ret 2%Z). cbn [mbind option_bind].
    unfold enif_realloc. by rewrite Ha, Hb. }
  assert (∀ t, add_element st t = Fault) as Hadd'.
  { intros t. rewrite <- (Hadd (env st) t). by destruct st. }
  destruct e; simpl in *; try done.
  - unfold handle_null. by rewrite Hadd'.
  - unfold handle_boolean. destruct boolVal; by rewrite Hadd'.
  - unfold handle_integer. by rewrite Hadd'.
  - unfold handle_double. by rewrite Hadd'.
  - unfold handle_string, enif_alloc_binary. rewrite (Hgrant _ eq_refl).
    cbn [negb]. by rewrite Hadd.
  - unfold handle_map_key, enif_alloc_binary.
    destruct (grants _ _); cbn [negb]; [|done]. by rewrite Hadd.
  - unfold handle_end_map, handle_end. rewrite Hc.
    destruct (enif_make_list_from_array _ _); cbn [mbind option_bind]; [|done].
    rewrite add_element_nil by done. cbn [mbind option_bind].
    rewrite Ha. cbn [env]. by rewrite Hb.
  - unfold handle_end_array, handle_end. rewrite Hc.
    destruct (enif_make_list_from_array _ _); cbn [mbind option_bind]; [|done].
    rewrite add_element_nil by done. cbn [mbind option_bind].
    rewrite Ha. cbn [env]. by rewrite Hb.
Qed.

Lemma second_top_level_term_faults_witness :
  callbacks (EvInteger 1) (initial_state system_allocator) = Ret (1%Z, complete_state)
  ∧ c complete_state = [Container Auto 1 1 (Some (Block Auto [Some (TLong 1)])) false]
  ∧ is_root (Container Auto 1 1 (Some (Block Auto [Some (TLong 1)])) false)
  ∧ callbacks (EvInteger 2) complete_state = Fault.
Proof.
  assert (is_root (Container Auto 1 1 (Some (Block Auto [Some (TLong 1)])) false))
    as Hroot.
  { split; [reflexivity|]. split; [reflexivity|]. eexists. split; reflexivity. }
  split; [reflexivity|]. split; [reflexivity|]. split; [exact Hroot|].
  apply (second_top_level_term_faults (EvInteger 2) complete_state _ eq_refl Hroot).
  - simpl. lia.
  - simpl. discriminate.
  - discriminate.
Defined.

End Parse.

(** ** Documents that are decoded without loss *)

Section Lossless.







End Lossless.

(** ** Callbacks that return *)

Section Progress.

Implicit Types (st : state_t) (t : term) (f : container_t) (e : event)
  (L : gset nat).

Lemma state_ok_block_live L st f next a b :
  state_ok L st → c st = f :: next → array f = Some a → base a = Heap b →
  b ∈ live (env st).
Proof.
  intros Hst Hc Ha Hb. rewrite (blocks_live _ _ Hst), Hc, stack_blocks_cons.
  unfold frame_blocks. rewrite Ha. simpl. rewrite Hb. set_solver.
Qed.

Lemma state_ok_self_live L st f next b :
  state_ok L st → c st = f :: next → self f = Heap b → b ∈ live (env st).
Proof.
  intros Hst Hc Hb. rewrite (blocks_live _ _ Hst), Hc, stack_blocks_cons.
  unfold frame_blocks. rewrite Hb. set_solver.
Qed.

(** A roomy frame takes a term. *)
Lemma add_element_roomy L st f next t :
  state_ok L st → c st = f :: next → roomy f →
  grants (env st) (calls (env st)) = true →
  ∃ st', add_element st t = Ret st'.
Proof.
  intros Hst Hc Hroomy Hg.
  assert (frame_ok f) as Hf.
  { pose proof (stack_frames _ _ Hst) as Hall. rewrite Hc in Hall.
    by apply Forall_cons in Hall as [? _]. }
  destruct Hroomy as [[(_ & Hsz & a & Ha & _) Hcnt]|([_ Harr] & [a Ha] & Hcnt)].
  - pose proof (array_size f Hf a Ha) as Hlen.
    assert (key f = false) as Hkey.
    { destruct (key f) eqn:Hk; [|done]. pose proof (key_count f Hf Hk). lia. }
    rewrite (add_element_cons _ _ _ _ Hc). unfold grown.
    rewrite bool_decide_eq_false_2 by lia. cbn [mbind option_bind].
    unfold placed. rewrite Hkey, Ha. unfold store. cbn [mbind option_bind].
    rewrite bool_decide_eq_true_2 by lia. cbn [mbind option_bind].
    rewrite Hcnt. by eexists.
  - destruct (Harr a Ha) as [b Hb].
    destruct (add_element_returns st f next a b t) as (st' & _ & Hadd & _);
      try done.
    + by eapply state_ok_block_live.
    + by exists st'.
Qed.

(** The terms of a frame in good order can be made a list. *)
Lemma frame_ok_make_list f :
  frame_ok f → is_Some (enif_make_list_from_array (array f) (count f)).
Proof.
  intros Hf. pose proof (count_range f Hf) as Hcnt.
  unfold enif_make_list_from_array.
  rewrite bool_decide_eq_false_2 by lia.
  case_bool_decide as Hz; [done|].
  destruct (frame_ok_array f Hf) as [a Ha]; [lia|].
  pose proof (array_size f Hf a Ha) as Hlen.
  rewrite Ha. cbn [mbind option_bind].
  rewrite bool_decide_eq_true_2 by lia.
  apply fmap_is_Some, mapM_is_Some_2, Forall_lookup.
  intros i x [Hx Hi]%lookup_take_Some.
  destruct (slots_set f Hf (Z.of_nat i)) as [ti Hti]; [lia|].
  rewrite Ha in Hti. unfold load in Hti. cbn [mbind option_bind] in Hti.
  rewrite bool_decide_eq_true_2, Nat2Z.id, Hx in Hti by lia.
  simpl in Hti. simpl. by rewrite Hti.
Qed.

Lemma handle_end_returns L st f g rest :
  state_ok L st → c st = f :: g :: rest → roomy g →
  grants (env st) (calls (env st)) = true →
  ∃ st', handle_end st = Ret (1%Z, st').
Proof.
  intros Hst Hc Hroomy Hg.
  destruct (state_ok_pop _ _ _ _ Hst Hc) as (Hst1 & [[bs Hself] Harr] & Hnd & _);
    [done|].
  assert (frame_ok f) as Hf.
  { pose proof (stack_frames _ _ Hst) as Hall. rewrite Hc in Hall.
    by apply Forall_cons in Hall as [? _]. }
  assert (frame_ok g) as Hfg.
  { pose proof (stack_frames _ _ Hst1) as Hall. simpl in Hall.
    by apply Forall_cons in Hall as [? _]. }
  unfold handle_end. rewrite Hc.
  destruct (frame_ok_make_list f Hf) as [l ->]. cbn [mbind option_bind].
  destruct (add_element_roomy _ (State (env st) (g :: rest) (errmsg st)) g rest l Hst1)
    as [st2 Hadd]; [done..|].
  rewrite Hadd. cbn [mbind option_bind].
  destruct (add_element_frame_ok (State (env st) (g :: rest) (errmsg st)) _ g rest _
              eq_refl Hfg Hadd)
    as (_ & _ & _ & _ & _ & _ & _ & Hlive & _).
  simpl in Hlive.
  pose proof (state_ok_self_live _ _ _ _ _ Hst Hc Hself) as Hbs.
  rewrite Hself. unfold frame_blocks in Hnd. rewrite Hself in Hnd.
  destruct (array f) as [a|] eqn:Ha.
  - destruct (Harr a eq_refl) as [ba Hba].
    pose proof (state_ok_block_live _ _ _ _ _ _ Hst Hc Ha Hba) as Hba'.
    simpl in Hnd. rewrite Hba in Hnd. simpl in Hnd.
    apply NoDup_cons in Hnd as [Hne _].
    rewrite Hba. unfold enif_free.
    rewrite bool_decide_eq_true_2 by (by rewrite Hlive). cbn [mbind option_bind live].
    rewrite bool_decide_eq_true_2 by (rewrite Hlive; set_solver).
    cbn [mbind option_bind]. by eexists.
  - cbn [mbind option_bind]. unfold enif_free.
    rewrite bool_decide_eq_true_2 by (by rewrite Hlive).
    cbn [mbind option_bind]. by eexists.
Qed.

(** X12: when a callback returns.  In a state in good order, with an
    allocator that grants what is asked from now on, a callback returns 1
    whenever the frames are in place for its event: for a value or a key the
    innermost frame is the empty dummy container, or a pushed frame with its
    term array and fewer than [2^30] terms; for an end event this holds of
    the frame below the innermost one; a start event needs nothing.
    Undefined behaviour arises from a refused allocation, a count beyond the
    range of [int], or events that yajl does not deliver in this order. *)
Theorem callbacks_return_when_in_place L e st :
  state_ok L st → in_place e (c st) →
  (∀ n, calls (env st) ≤ n → grants (env st) n = true) →
  ∃ st', callbacks e st = Ret (1%Z, st').
Proof.
  intros Hst Hplace Hgrants.
  pose proof (Hgrants (calls (env st)) (le_n _)) as Hg.
  assert (∀ t, (∃ f next, c st = f :: next ∧ roomy f) →
               ∃ st', add_element st t = Ret st') as Hadd.
  { intros t (f & next & Hc & Hf). by eapply add_element_roomy. }
  assert (∀ t, (∃ f next, c st = f :: next ∧ roomy f) →
               ∃ st', add_element (with_env st (request (env st))) t = Ret st'
                      ∧ c st' ≠ []) as Hadd1.
  { intros t (f & next & Hc & Hf).
    destruct (add_element_roomy L (with_env st (request (env st))) f next t)
      as [st' Hst']; [by apply state_ok_request|done|done|apply Hgrants; simpl; lia|].
    exists st'. split; [done|].
    destruct (add_element_frames _ _ _ Hst')
      as [[Hnil _]|(f0 & next0 & f' & _ & Hc' & _)]; [|by rewrite Hc'].
    simpl in Hnil. congruence. }
  assert (match c st with f :: _ => roomy f | [] => False end →
          ∃ f next, c st = f :: next ∧ roomy f) as Htop.
  { destruct (c st) as [|f next]; [done|]. intros Hf. by exists f, next. }
  assert (∃ st', handle_start st = Ret (1%Z, st')) as Hstart.
  { unfold handle_start, enif_alloc. rewrite Hg. simpl.
    rewrite (Hgrants (S (calls (env st)))) by lia. by eexists. }
  assert (match c st with _ :: g :: _ => roomy g | _ => False end →
          ∃ st', handle_end st = Ret (1%Z, st')) as Hend.
  { destruct (c st) as [|f [|g rest]] eqn:Hc; [done..|].
    intros Hroomy. by eapply handle_end_returns. }
  destruct e; simpl in Hplace; simpl; try done; try (by apply Hend).
  - destruct (Hadd (enif_make_atom "undefined")) as [st' Hst']; [by apply Htop|].
    unfold handle_null. rewrite Hst'. by eexists.
  - unfold handle_boolean. destruct boolVal.
    + destruct (Hadd (enif_make_atom "true")) as [st' ->]; [by apply Htop|].
      by eexists.
    + destruct (Hadd (enif_make_atom "false")) as [st' ->]; [by apply Htop|].
      by eexists.
  - destruct (Hadd (enif_make_long (cast_long integerVal))) as [st' Hst'];
      [by apply Htop|].
    unfold handle_integer. rewrite Hst'. by eexists.
  - destruct (Hadd (enif_make_double doubleVal)) as [st' Hst']; [by apply Htop|].
    unfold handle_double. rewrite Hst'. by eexists.
  - destruct (Hadd1 (enif_make_binary (strncpy stringVal (length stringVal))))
      as (st' & Hst' & _); [by apply Htop|].
    unfold handle_string, enif_alloc_binary. rewrite Hg. cbn [negb].
    rewrite Hst'. by eexists.
  - destruct (Hadd1 (enif_make_binary (strncpy stringVal (length stringVal))))
      as (st' & Hst' & Hne); [by apply Htop|].
    unfold handle_map_key, enif_alloc_binary. rewrite Hg. cbn [negb].
    rewrite Hst'. cbn [mbind option_bind].
    destruct (c st') as [|f next]; [done|]. by eexists.
Qed.

Lemma callbacks_return_when_in_place_witness :
  state_ok ∅ opened_state
  ∧ in_place (EvMapKey ["k"%byte]) (c opened_state)
  ∧ (∀ n, calls (env opened_state) ≤ n → grants (env opened_state) n = true)
  ∧ ∃ st', callbacks (EvMapKey ["k"%byte]) opened_state = Ret (1%Z, st').
Proof.
  assert (state_ok ∅ opened_state) as Hopened.
  { apply (handle_start_state_ok ∅ (initial_state system_allocator) 1%Z);
      [|reflexivity].
    apply (initial_state_ok system_allocator), plentiful_system. }
  assert (in_place (EvMapKey ["k"%byte]) (c opened_state)) as Hplace.
  { right. split; [|split; [by eexists|reflexivity]].
    split; [by eexists|]. intros a [= <-]. by eexists. }
  assert (∀ n, calls (env opened_state) ≤ n → grants (env opened_state) n = true)
    as Hgrants by done.
  split; [exact Hopened|]. split; [exact Hplace|]. split; [exact Hgrants|].
  exact (callbacks_return_when_in_place ∅ (EvMapKey ["k"%byte]) opened_state
           Hopened Hplace Hgrants).
Defined.

End Progress.

(** ** Requests that are refused *)

Section Refusals.

Implicit Types (st : state_t) (t : term) (f : container_t) (e : event).

(** A frame that is full cannot take a term when the allocator refuses to
    resize its array: the null result of [enif_realloc] is written through. *)
Lemma add_element_refused st t f next :
  c st = f :: next → (arraysz f ≤ count f)%Z →
  grants (env st) (calls (env st)) = false →
  add_element st t = Fault.
Proof.
  intros Hc Hfull Hg. rewrite (add_element_cons _ _ _ _ Hc). unfold grown.
  rewrite bool_decide_eq_true_2 by done.
  destruct (int (arraysz f * 2)) as [sz|]; cbn [mbind option_bind]; [|done].
  assert (placed f sz None t = Fault) as Hplaced.
  { unfold placed. destruct (key f); [|done].
    by destruct (int (count f - 1)). }
  unfold enif_realloc. destruct (array f) as [a|].
  - destruct (base a) as [|b]; [done|]. case_bool_decide; [|done].
    rewrite Hg. cbn [mbind option_bind]. by rewrite Hplaced.
  - unfold enif_alloc. rewrite Hg. cbn [mbind option_bind fmap option_fmap option_map].
    by rewrite Hplaced.
Qed.

(** X13: a request that is refused.  When the allocator refuses the next
    request, only the string callback takes note: it returns 0 and leaves
    the frames alone.  The map-key callback and the start callbacks run into
    undefined behaviour, and so does every other callback whose term goes to
    a frame that is full, an end event included: the null result is written
    through. *)
Theorem refused_request_is_fatal e st :
  grants (env st) (calls (env st)) = false →
  match e with
  | EvString _ => callbacks e st = Ret (0%Z, with_env st (request (env st)))
  | EvStartMap | EvStartArray | EvMapKey _ => callbacks e st = Fault
  | EvEndMap | EvEndArray =>
      ∀ f g rest, c st = f :: g :: rest → (arraysz g ≤ count g)%Z →
                  callbacks e st = Fault
  | _ =>
      ∀ f next, c st = f :: next → (arraysz f ≤ count f)%Z →
                callbacks e st = Fault
  end.
Proof.
  intros Hg.
  assert (handle_start st = Fault) as Hstart.
  { unfold handle_start, enif_alloc. by rewrite Hg. }
  assert (∀ f g rest, c st = f :: g :: rest → (arraysz g ≤ count g)%Z →
                      handle_end st = Fault) as Hend.
  { intros f g rest Hc Hfull. unfold handle_end. rewrite Hc.
    destruct (enif_make_list_from_array _ _) as [l|]; cbn [mbind option_bind]; [|done].
    by rewrite (add_element_refused _ l g rest). }
  destruct e; simpl; try done.
  - intros f next Hc Hfull. unfold handle_null.
    by rewrite (add_element_refused _ _ f next).
  - intros f next Hc Hfull. unfold handle_boolean.
    destruct boolVal; by rewrite (add_element_refused _ _ f next).
  - intros f next Hc Hfull. unfold handle_integer.
    by rewrite (add_element_refused _ _ f next).
  - intros f next Hc Hfull. unfold handle_double.
    by rewrite (add_element_refused _ _ f next).
  - unfold handle_string, enif_alloc_binary. by rewrite Hg.
  - unfold handle_map_key, enif_alloc_binary. by rewrite Hg.
Qed.

Lemma refused_request_is_fatal_witness :
  grants (Allocator {[0; 1]} 2 (λ _, false)) 2 = false
  ∧ (arraysz full_frame ≤ count full_frame)%Z
  ∧ callbacks EvNull
      (State (Allocator {[0; 1]} 2 (λ _, false)) [full_frame; root_frame] [])
    = Fault.
Proof.
  split; [reflexivity|]. split; [discriminate|].
  apply (refused_request_is_fatal EvNull
           (State (Allocator {[0; 1]} 2 (λ _, false)) [full_frame; root_frame] [])
           eq_refl full_frame [root_frame] eq_refl).
  discriminate.
Defined.

End Refusals.
